(** * geoProc: the raster alignment and tiling core, embedded in Rocq

    The development follows the Python sources:
    - [surfaceMapping/util.py]  (class [TileLocator])
    - [xext/grid.py]            (class [GDALGrid], [resample_grid])
    - [xext/xrio.py]            (class [XRio])

    Python floats are modelled as rationals ([Q]) and Python ints as [Z].
    Float arithmetic is exact, except in the part on the pixel mapping,
    where every operation is followed by a rounding.
    Exceptions are modelled by an explicit result type. *)

From Stdlib Require Import ZArith QArith Qround Qabs Qpower Lia List String Ascii.
From Stdlib Require Import DecimalString Sorting.Permutation Sorting.Sorted Lqa.
From stdpp Require Import base option list gmap strings.

Local Open Scope Z_scope.

(* ------------------------------------------------------------------ *)
(** ** Outcomes of a Python call *)

Inductive exn : Type :=
| IndexError
| TransformNotInvertibleError
| AssertionError
| FileNotFoundError
| ValueError
| RuntimeError.

Inductive result (A : Type) : Type :=
| Ok (a : A)
| Raise (e : exn).
Arguments Ok {A} a.
Arguments Raise {A} e.

(* ------------------------------------------------------------------ *)
(** ** surfaceMapping/util.py : TileLocator *)

Module TileLocator.

(** [f"{n:03d}"]: decimal digits, zero padded to width 3, the sign
    (when there is one) counted in the width. *)
Definition digits (n : Z) : string :=
  NilZero.string_of_uint (N.to_uint (Z.to_N n)).

Fixpoint zeros (k : nat) : string :=
  match k with
  | O => EmptyString
  | S k' => String "0" (zeros k')
  end.

Definition zfill (w : nat) (s : string) : string :=
  (zeros (w - String.length s) ++ s)%string.

Definition format_03d (n : Z) : string :=
  if n <? 0 then ("-" ++ zfill 2 (digits (- n)))%string
  else zfill 3 (digits n).

(** [abs( int(floor(fval / 10.0)) * 10 )] *)
Definition floor10 (fval : Q) : Z :=
  Z.abs (Qfloor (fval / 10) * 10).

(** [abs( int(ceil(fval / 10.0)) * 10 )] *)
Definition ceil10 (fval : Q) : Z :=
  Z.abs (Qceiling (fval / 10) * 10).

(** [coord if coord < 180 else coord - 360] *)
Definition unwrap (coord : Q) : Q :=
  if Qlt_le_dec coord 180 then coord else coord - 360.

Definition lon_label (lon : Q) : string :=
  let ulon := unwrap lon in
  if Qlt_le_dec ulon 0 then (format_03d (floor10 ulon) ++ "W")%string
  else (format_03d (floor10 ulon) ++ "E")%string.

Definition lat_label (lat : Q) : string :=
  if Qlt_le_dec 0 lat then (format_03d (ceil10 lat) ++ "N")%string
  else (format_03d (ceil10 lat) ++ "S")%string.

(** The set display [{ a, b }] holds one element when [a == b] and two
    otherwise. *)
Definition set2 (a b : string) : list string :=
  if String.eqb a b then [a] else [a; b].

Section Iteration.
(** Python does not fix the order in which the elements of a set of
    strings are visited; [iter] stands for the order that a given
    interpreter run uses. *)
Variable iter : list string -> list string.

Definition get_tiles (xmin xmax ymin ymax : Q) : list string :=
  let xvals := iter (set2 (lon_label xmin) (lon_label xmax)) in
  let yvals := iter (set2 (lat_label ymin) (lat_label ymax)) in
  flat_map (fun xval => map (fun yval => (xval ++ yval)%string) yvals) xvals.
End Iteration.

(** The 10-degree column and row that the labels are derived from. *)
Definition lon_cell (lon : Q) : Z := Qfloor (unwrap lon / 10).
Definition lat_cell (lat : Q) : Z := Qceiling (lat / 10).

End TileLocator.

(** The reading of [lon_label] given in the prose description: unwrap
    [[0,360)] to [(-180,180]], magnitude [floor(|lon|/10)*10], suffix by
    the sign of the original value. *)
Module Described.
Import TileLocator.

Definition unwrap_described (lon : Q) : Q :=
  if Qlt_le_dec lon 0 then lon
  else if Qlt_le_dec lon 360 then
         (if Qlt_le_dec 180 lon then lon - 360 else lon)
       else lon.

Definition lon_label_described (lon : Q) : string :=
  let m := Qfloor (Qabs (unwrap_described lon) / 10) * 10 in
  if Qlt_le_dec lon 0 then (format_03d m ++ "W")%string
  else (format_03d m ++ "E")%string.

End Described.

(* ------------------------------------------------------------------ *)
(** ** The [affine] package, as used by xext/grid.py *)

Module Affine.
Local Open Scope Q_scope.

(** [| a b c |]
    [| d e f |]  with the third row fixed to [0 0 1]. *)
Record t : Type := mk { a : Q; b : Q; c : Q; d : Q; e : Q; f : Q }.

(** [Affine.from_gdal(c, a, b, f, d, e)] *)
Definition from_gdal (gt : Q * Q * Q * Q * Q * Q) : t :=
  let '(gc, ga, gb, gf, gd, ge) := gt in mk ga gb gc gd ge gf.

Definition determinant (m : t) : Q := a m * e m - b m * d m.

Definition is_degenerate (m : t) : bool := Qeq_bool (determinant m) 0.

(** [~m] *)
Definition invert (m : t) : result t :=
  if is_degenerate m then Raise TransformNotInvertibleError
  else
    let idet := 1 / determinant m in
    let ra := e m * idet in
    let rb := - b m * idet in
    let rd := - d m * idet in
    let re := a m * idet in
    Ok (mk ra rb (- c m * ra - f m * rb) rd re (- c m * rd - f m * re)).

(** [m * (vx, vy)] *)
Definition apply (m : t) (v : Q * Q) : Q * Q :=
  let (vx, vy) := v in
  (vx * a m + vy * b m + c m, vx * d m + vy * e m + f m).

End Affine.

(* ------------------------------------------------------------------ *)
(** ** xext/grid.py : GDALGrid *)

Module GDALGrid.

Record Band : Type := mkBand {
  GetNoDataValue : option Q;   (* [None] when the band declares none *)
  DataType : nat
}.

Record Dataset : Type := mkDataset {
  GetGeoTransform : Q * Q * Q * Q * Q * Q;
  RasterXSize : Z;
  RasterYSize : Z;
  GetProjection : string;
  Bands : list Band
}.

Definition RasterCount (ds : Dataset) : nat := length (Bands ds).

Definition affine (self : Dataset) : Affine.t :=
  Affine.from_gdal (GetGeoTransform self).

Definition x_size (self : Dataset) : Z := RasterXSize self.
Definition y_size (self : Dataset) : Z := RasterYSize self.

(** [int(x)] on a float: truncation toward zero. *)
Definition py_int (q : Q) : Z := Z.quot (Qnum q) (Z.pos (Qden q)).

Definition pixel2coord (self : Dataset) (col row : Z) : result (Q * Q) :=
  if x_size self <=? col then Raise IndexError
  else if y_size self <=? row then Raise IndexError
  else Ok (Affine.apply (affine self)
             ((inject_Z col + (1 # 2))%Q, (inject_Z row + (1 # 2))%Q)).

Definition coord2pixel (self : Dataset) (x_coord y_coord : Q)
  : result (Z * Z) :=
  match Affine.invert (affine self) with
  | Raise err => Raise err
  | Ok inv =>
      let (col, row) := Affine.apply inv (x_coord, y_coord) in
      if Qlt_le_dec (inject_Z (x_size self)) col then Raise IndexError
      else if Qlt_le_dec col 0 then Raise IndexError
      else if Qlt_le_dec (inject_Z (y_size self)) row then Raise IndexError
      else if Qlt_le_dec row 0 then Raise IndexError
      else Ok (py_int col, py_int row)
  end.

(** The fractional pixel position that [coord2pixel] tests and truncates. *)
Definition frac_index (self : Dataset) (x_coord y_coord : Q)
  : result (Q * Q) :=
  match Affine.invert (affine self) with
  | Raise err => Raise err
  | Ok inv => Ok (Affine.apply inv (x_coord, y_coord))
  end.

Definition in_bounds (self : Dataset) (ix : Z * Z) : Prop :=
  0 <= fst ix < x_size self /\ 0 <= snd ix < y_size self.

End GDALGrid.

(* ------------------------------------------------------------------ *)
(** ** xext/grid.py : resample_grid *)

Module Resample.
Import GDALGrid.

(** Truth value of what [GetNoDataValue()] returns: [None] and [0.0] are
    both false. *)
Definition truthy (v : option Q) : bool :=
  match v with
  | None => false
  | Some q => negb (Qeq_bool q 0)
  end.

(** [driver.Create(path, xsize, ysize, count, datatype)]: the bands of a
    new dataset declare no nodata value. *)
Definition Create (xsize ysize : Z) (count : nat) (datatype : nat)
  : Dataset :=
  mkDataset (0, 1, 0, 0, 0, 1)%Q xsize ysize EmptyString
            (replicate count (mkBand None datatype)).

Definition SetGeoTransform (gt : Q * Q * Q * Q * Q * Q) (ds : Dataset)
  : Dataset :=
  mkDataset gt (RasterXSize ds) (RasterYSize ds) (GetProjection ds) (Bands ds).

Definition SetProjection (prj : string) (ds : Dataset) : Dataset :=
  mkDataset (GetGeoTransform ds) (RasterXSize ds) (RasterYSize ds) prj
            (Bands ds).

(** [ds.GetRasterBand(band_i).SetNoDataValue(v)], bands counted from 1. *)
Definition SetNoDataValue (band_i : nat) (v : Q) (ds : Dataset) : Dataset :=
  mkDataset (GetGeoTransform ds) (RasterXSize ds) (RasterYSize ds)
            (GetProjection ds)
            (alter (fun bd => mkBand (Some v) (DataType bd))
                   (band_i - 1)%nat (Bands ds)).

(** One turn of the loop over [range(1, dst.RasterCount + 1)]. *)
Definition nodata_step (src : Dataset) (dst : Dataset) (band_i : nat)
  : Dataset :=
  let nodata_value :=
    (Bands src !! (band_i - 1)%nat) ≫= GetNoDataValue in
  let nodata_value :=
    if truthy nodata_value then default (-9999)%Q nodata_value
    else (-9999)%Q in
  SetNoDataValue band_i nodata_value dst.

(** The metadata of the dataset that [resample_grid] hands to
    [gdal.ReprojectImage]; the warp fills the pixels and leaves the
    metadata alone.  [None] for [output_datatype] takes the type of the
    first source band. *)
Definition resample_grid (src match_ds : Dataset)
           (output_datatype : option nat) : result Dataset :=
  match output_datatype, Bands src !! 0%nat with
  | None, None => Raise RuntimeError
  | _, first =>
      let dt := default (default 0%nat (DataType <$> first)) output_datatype in
      let dst := Create (RasterXSize match_ds) (RasterYSize match_ds)
                        (RasterCount src) dt in
      let dst := SetGeoTransform (GetGeoTransform match_ds) dst in
      let dst := SetProjection (GetProjection match_ds) dst in
      Ok (foldl (nodata_step src) dst (seq 1 (RasterCount dst)))
  end.

Definition dst_nodata (d : Dataset) (band_i : nat) : option Q :=
  (Bands d !! (band_i - 1)%nat) ≫= GetNoDataValue.

(** The value the loop gives to destination band [i] (counted from 0). *)
Definition assigned_nodata (src : Dataset) (i : nat) : Q :=
  match (Bands src !! i) ≫= GetNoDataValue with
  | Some v => if Qeq_bool v 0 then (-9999)%Q else v
  | None => (-9999)%Q
  end.

(** Truth value of [to_file]: [False] ([None] here) and the empty string
    are both false. *)
Definition writes_file (to_file : option string) : bool :=
  match to_file with
  | None => false
  | Some EmptyString => false
  | Some _ => true
  end.

Section Warp.

(** [gdal.ReprojectImage(src, dst, ...)] is GDAL's: it fills the pixels of
    [dst], which are not part of [Dataset], or raises. *)
Variable ReprojectImage : Dataset -> Dataset -> result unit.

(** The whole of [resample_grid(original_grid, match_grid, to_file,
    output_datatype)]: the destination is built as above and handed to
    [gdal.ReprojectImage]; the call returns it when the grid stays in memory
    and [None] when it goes to a file.  [GDALGrid(dst)] is represented by
    [dst]. *)
Definition resample_grid_call (src match_ds : Dataset)
           (to_file : option string) (output_datatype : option nat)
  : result (option Dataset) :=
  match resample_grid src match_ds output_datatype with
  | Raise err => Raise err
  | Ok dst =>
      match ReprojectImage src dst with
      | Raise err => Raise err
      | Ok _ => if writes_file to_file then Ok None else Ok (Some dst)
      end
  end.

End Warp.

End Resample.

(* ------------------------------------------------------------------ *)
(** ** xext/xrio.py : XRio *)

Module XRio.

(** A raster array as [rioxarray.open_rasterio] yields it: dimensions
    (band,) y, x, each with labelled coordinates.  Such an array has no
    time axis. *)
Record DataArray : Type := mkDataArray {
  shape : list nat;
  x_coord : list Q;      (* coordinate values of [dims[-1]] *)
  y_coord : list Q;      (* coordinate values of [dims[-2]] *)
  values : list Q
}.

(** A [DataArray] with one more, leading, axis: entry [i] along that axis
    is [frames !! i].  [index] holds the coordinate values of the axis
    when it has some.  The padding that xarray's outer join adds to
    entries of different extents is not represented. *)
Record Stack : Type := mkStack {
  axis : string;
  index : option (list Z);
  frames : list DataArray
}.

Definition stack_shape (s : Stack) : list nat :=
  length (frames s) :: from_option shape [] (head (frames s)).

(** [a.expand_dims("time", 0)] *)
Definition expand_dims (a : DataArray) : Stack := mkStack "time" None [a].

(** [xr.concat([s1, s2], dim_name)] along the axis both already have. *)
Definition xr_concat_along (s1 s2 : Stack) (dim_name : string) : Stack :=
  mkStack dim_name None (frames s1 ++ frames s2).

(** [xr.concat(arrays, pd.Index(vals, name=dim_name))]: a new leading axis
    labelled by [vals].  Arrays with labelled coordinates are aligned by
    outer join whatever their shapes; an empty list and a label count that
    differs from the number of arrays are refused. *)
Definition xr_concat_new (arrays : list DataArray) (vals : list Z)
           (dim_name : string) : result Stack :=
  match arrays with
  | [] => Raise ValueError
  | _ => if (length vals =? length arrays)%nat
         then Ok (mkStack dim_name (Some vals) arrays)
         else Raise ValueError
  end.

(** Keyword arguments that the loader looks at. *)
Record Kwargs : Type := mkKwargs {
  kill_zombies : bool;               (* default [False] *)
  kw_index : option (list Z);        (* ['index'], default [None] *)
  kw_axis : option string            (* ['axis'], default ['time'] *)
}.

Inductive FilePaths : Type :=
| OnePath (p : string)
| PathList (l : list string).

(** [if isinstance( filePaths, str ): filePaths = [ filePaths ]] *)
Definition as_list (fp : FilePaths) : list string :=
  match fp with
  | OnePath p => [p]
  | PathList l => l
  end.

(** [list(enumerate(l))] *)
Definition enumerate {A : Type} (l : list A) : list (nat * A) :=
  zip (seq 0 (length l)) l.

Definition concat (s1 s2 : Stack) : Stack := xr_concat_along s1 s2 "time".

(** One turn of the loop body of [load] on an array that opened. *)
Definition absorb (acc : option Stack) (a : DataArray) : option Stack :=
  Some (match acc with
        | None => expand_dims a
        | Some r => concat r (expand_dims a)
        end).

Definition mergable (arrays : list DataArray) : bool :=
  match arrays with
  | [] => true
  | a0 :: _ => forallb (fun a => bool_decide (shape a = shape a0)) arrays
  end.

(** [np.extract(index_mask, index)] *)
Fixpoint np_extract (index_mask : list bool) (index : list Z)
  : result (list Z) :=
  match index_mask, index with
  | [], _ => Ok []
  | true :: _, [] => Raise IndexError
  | false :: m, [] => np_extract m []
  | true :: m, v :: r =>
      match np_extract m r with
      | Ok l => Ok (v :: l)
      | Raise err => Raise err
      end
  | false :: m, _ :: r => np_extract m r
  end.

Definition merge (data_arrays : list DataArray) (kw : Kwargs)
           (index_mask : option (list bool)) : result Stack :=
  let new_axis_name := default "time" (kw_axis kw) in
  let new_axis_values :=
    match kw_index kw with
    | None => Ok (map Z.of_nat (seq 0 (length data_arrays)))
    | Some index =>
        match index_mask with
        | None => Ok index
        | Some m => np_extract m index
        end
    end in
  match new_axis_values with
  | Raise err => Raise err
  | Ok vals => xr_concat_new data_arrays vals new_axis_name
  end.

(** Stable in-place sort of a list of numbers, [l.sort(reverse=r)]. *)
Definition before (reverse : bool) (p q : Q) : bool :=
  if reverse then Qle_bool q p else Qle_bool p q.

Fixpoint sort_insert (reverse : bool) (p : Q) (l : list Q) : list Q :=
  match l with
  | [] => [p]
  | q :: l' => if before reverse p q then p :: q :: l'
               else q :: sort_insert reverse p l'
  end.

Definition py_sort (reverse : bool) (l : list Q) : list Q :=
  foldr (sort_insert reverse) [] l.

(** The order that [l.sort(reverse=r)] establishes. *)
Definition ordered (reverse : bool) (p q : Q) : Prop :=
  if reverse then (q <= p)%Q else (p <= q)%Q.

(** [TileLocator.get_bounds]:
    [[ x_coord[0], x_coord[-1], y_coord[0], y_coord[-1] ]] *)
Definition get_bounds (a : DataArray) : result (Q * Q * Q * Q) :=
  match head (x_coord a), last (x_coord a),
        head (y_coord a), last (y_coord a) with
  | Some x0, Some x1, Some y0, Some y1 => Ok (x0, x1, y0, y1)
  | _, _, _, _ => Raise IndexError
  end.

(** Python list objects live in a store and are passed by reference. *)
Abbreviation loc := nat (only parsing).
Abbreviation heap := (gmap nat (list Q)) (only parsing).

Section Files.
(** What a path holds, and the [try] block of [open] on an existing
    file (lines 27-38: read, band selection, mask dispatch); [None]
    stands for any exception raised there.  A path that is not in the
    file system makes [open_rasterio] raise. *)
Variable Content : Type.
Variable read : Content -> option DataArray.

(** [self._obj.sel]: the label-based window selection of xarray, with
    the [slice] built from the x bounds on [dims[-1]] and the one built
    from the y bounds on [dims[-2]]. *)
Variable sel : DataArray -> list Q -> list Q -> result DataArray.

Definition try_open (files : gmap string Content) (filename : string)
  : option DataArray :=
  (files !! filename) ≫= read.

(** [os.remove(filename)] *)
Definition os_remove (files : gmap string Content) (filename : string)
  : gmap string Content * result () :=
  match files !! filename with
  | Some _ => (delete filename files, Ok tt)
  | None => (files, Raise FileNotFoundError)
  end.

Definition open (iFile : nat) (filename : string) (kw : Kwargs)
           (files : gmap string Content)
  : gmap string Content * result (option DataArray) :=
  match try_open files filename with
  | Some r => (files, Ok (Some r))
  | None =>
      if kill_zombies kw then
        match os_remove files filename with
        | (files', Ok _) => (files', Ok None)
        | (files', Raise err) => (files', Raise err)
        end
      else (files, Ok None)
  end.

Fixpoint load_loop (todo : list (nat * string)) (kw : Kwargs)
         (files : gmap string Content) (result_ : option Stack)
  : gmap string Content * result (option Stack) :=
  match todo with
  | [] => (files, Ok result_)
  | (iF, file) :: rest =>
      match open iF file kw files with
      | (files', Raise err) => (files', Raise err)
      | (files', Ok None) => load_loop rest kw files' result_
      | (files', Ok (Some data_array)) =>
          let data_array := expand_dims data_array in
          load_loop rest kw files'
            (Some (match result_ with
                   | None => data_array
                   | Some r => concat r data_array
                   end))
      end
  end.

Definition load (filePaths : FilePaths) (kw : Kwargs)
           (files : gmap string Content)
  : gmap string Content * result (option Stack) :=
  load_loop (enumerate (as_list filePaths)) kw files None.

Inductive Loaded : Type :=
| Merged (s : Stack)
| Single (a : DataArray).

Fixpoint load1_loop (todo : list (nat * string)) (kw : Kwargs)
         (files : gmap string Content)
         (array_list : list DataArray) (index_mask : list bool)
  : gmap string Content * result (list DataArray * list bool) :=
  match todo with
  | [] => (files, Ok (array_list, index_mask))
  | (iF, file) :: rest =>
      match open iF file kw files with
      | (files', Raise err) => (files', Raise err)
      | (files', Ok (Some data_array)) =>
          load1_loop rest kw files' (array_list ++ [data_array]) index_mask
      | (files', Ok None) =>
          load1_loop rest kw files' array_list (<[iF := false]> index_mask)
      end
  end.

Definition load1 (filePaths : FilePaths) (kw : Kwargs)
           (files : gmap string Content)
  : gmap string Content * result Loaded :=
  let paths := as_list filePaths in
  match load1_loop (enumerate paths) kw files []
                   (replicate (length paths) true) with
  | (files', Raise err) => (files', Raise err)
  | (files', Ok (array_list, index_mask)) =>
      if (1 <? length array_list)%nat then
        if mergable array_list then
          match merge array_list kw (Some index_mask) with
          | Ok s => (files', Ok (Merged s))
          | Raise err => (files', Raise err)
          end
        else (files', Raise AssertionError)
      else
        match array_list with
        | a :: _ => (files', Ok (Single a))
        | [] => (files', Raise IndexError)
        end
  end.

(** [subset]: [xbounds] and [ybounds] are references to the caller's
    lists. *)
Definition subset (self : DataArray) (iFile : nat) (xbounds ybounds : loc)
           (h : heap) : heap * result DataArray :=
  match get_bounds self with
  | Raise err => (h, Raise err)
  | Ok (_, _, tb2, tb3) =>
      let h := <[xbounds := py_sort false (h !!! xbounds)]> h in
      let reverse := if Qlt_le_dec tb3 tb2 then true else false in
      let h := <[ybounds := py_sort reverse (h !!! ybounds)]> h in
      (h, sel self (h !!! xbounds) (h !!! ybounds))
  end.

End Files.

(** Which of the paths open, in input order. *)
Definition opened {Content : Type} (read : Content -> option DataArray)
           (files : gmap string Content) (paths : list string)
  : list DataArray :=
  omap (try_open Content read files) paths.

Definition failures {Content : Type} (read : Content -> option DataArray)
           (files : gmap string Content) (paths : list string) : nat :=
  length (filter (fun p => try_open Content read files p = None) paths).

End XRio.

(* ------------------------------------------------------------------ *)
(** ** xext/grid.py : extent and coordinate arrays of a GDALGrid *)

Module GridExtent.
Import GDALGrid.

(** [bounds()] with none of [as_geographic], [as_utm], [as_projection]:
    [(x_min, x_max, y_min, y_max)] from the corners [(0, RasterYSize)] and
    [(RasterXSize, 0)]. *)
Definition bounds (self : Dataset) : Q * Q * Q * Q :=
  let '(x_min, y_min) :=
    Affine.apply (affine self) (0%Q, inject_Z (RasterYSize self)) in
  let '(x_max, y_max) :=
    Affine.apply (affine self) (inject_Z (RasterXSize self), 0%Q) in
  (x_min, x_max, y_min, y_max).

(** [np.arange(n) + 0.5] *)
Definition arange_half (n : Z) : list Q :=
  map (fun i => (inject_Z (Z.of_nat i) + (1 # 2))%Q) (seq 0 (Z.to_nat n)).

(** [x_coords]: the first components of the transform applied to
    [(np.arange(x_size) + 0.5, np.zeros(x_size) + 0.5)]. *)
Definition x_coords (self : Dataset) : list Q :=
  map (fun vx => fst (Affine.apply (affine self) (vx, (0 + (1 # 2))%Q)))
      (arange_half (x_size self)).

(** [y_coords]: the second components of the transform applied to
    [(np.zeros(y_size) + 0.5, np.arange(y_size) + 0.5)]. *)
Definition y_coords (self : Dataset) : list Q :=
  map (fun vy => snd (Affine.apply (affine self) ((0 + (1 # 2))%Q, vy)))
      (arange_half (y_size self)).

End GridExtent.

(* ------------------------------------------------------------------ *)
(** ** data/mwp.py : MWPDataManager *)

Module MWPDataManager.
Import TileLocator.

(** [range(start, stop, 10)] for [start <= stop], as used for the tile
    edges: [range(10,181,10)] and [range(10,71,10)]. *)
Definition range10 (start stop : Z) : list Z :=
  map (fun i => start + 10 * Z.of_nat i)
      (seq 0 (Z.to_nat ((stop - start + 9) / 10))).

Definition get_global_locations : list string :=
  flat_map (fun ix =>
    flat_map (fun xhemi =>
      flat_map (fun iy =>
        map (fun yhemi =>
               (format_03d ix ++ xhemi ++ format_03d iy ++ yhemi)%string)
            ["N"; "S"]%string)
        (range10 10 71))
      ["E"; "W"]%string)
    (range10 10 181)
  ++ flat_map (fun ix =>
       map (fun xhemi => (format_03d ix ++ xhemi ++ "000S")%string)
           ["E"; "W"]%string)
       (range10 10 181)
  ++ flat_map (fun iy =>
       map (fun yhemi => ("000E" ++ format_03d iy ++ yhemi)%string)
           ["N"; "S"]%string)
       (range10 10 71).

Inductive error : Type :=
| ZeroDivisionError
| RangeStepZero.     (* [ValueError: range() arg 3 must not be zero] *)

(** [round(x)] on a float: to the nearest integer, ties to the even one. *)
Definition py_round (q : Q) : Z :=
  let fl := Qfloor q in
  let frac := (q - inject_Z fl)%Q in
  match Qcompare frac (1 # 2) with
  | Lt => fl
  | Gt => fl + 1
  | Eq => if Z.even fl then fl else fl + 1
  end.

(** [[ l[x:x + seg_length] for x in range(0, len(l), seg_length) ]] for a
    positive [seg_length]: [count] slices. *)
Definition slices {A : Type} (l : list A) (seg_length : nat) (count : nat)
  : list (list A) :=
  map (fun k => take seg_length (drop (k * seg_length) l)) (seq 0 count).

(** [_segment(strList, nSegments)] *)
Definition _segment {A : Type} (strList : list A) (nSegments : Z)
  : error + list (list A) :=
  if nSegments =? 0 then inl ZeroDivisionError
  else
    let seg_length :=
      py_round (inject_Z (Z.of_nat (length strList)) / inject_Z nSegments) in
    if seg_length =? 0 then inl RangeStepZero
    else if seg_length <? 0 then inr []
    else
      let s := Z.to_nat seg_length in
      inr (slices strList s ((length strList + s - 1) / s)%nat).

End MWPDataManager.

(* ------------------------------------------------------------------ *)
(** ** surfaceMapping/processing.py : LakeMaskProcessor *)

Module LakeMaskProcessor.

(** [src_file[:-4] + ".geo.tif"] *)
Definition dest_file (src_file : string) : string :=
  (substring 0 (String.length src_file - 4) src_file ++ ".geo.tif")%string.

(** [convert]: the name it returns, and whether it runs [XRio.convert]
    (which writes the destination file). *)
Definition convert (exists_ : string -> bool) (src_file : string)
           (overwrite : bool) : string * bool :=
  let dest := dest_file src_file in
  (dest, overwrite || negb (exists_ dest)).

(** [range(lo, hi)] on integers. *)
Definition zrange (lo hi : Z) : list Z :=
  map (fun i => lo + Z.of_nat i) (seq 0 (Z.to_nat (hi - lo))).

(** [od[key] = value] on an [OrderedDict]: a present key keeps its place,
    a new key goes to the end. *)
Fixpoint od_set (od : list (Z * string)) (key : Z) (value : string)
  : list (Z * string) :=
  match od with
  | [] => [(key, value)]
  | (k, v) :: rest =>
      if k =? key then (k, value) :: rest
      else (k, v) :: od_set rest key value
  end.

Inductive outcome (A : Type) : Type :=
| Done (a : A)
| KeyError.
Arguments Done {A} a.
Arguments KeyError {A}.

Section Lakes.
(** [os.path.isfile], and the path
    [os.path.join(year_dir, files_spec.format(year=.., lake_index=..))]
    of a year and a lake. *)
Variable isfile : string -> bool.
Variable file_path : Z -> Z -> string.
Variable reproject_inputs : bool.

Definition mask_entry (fp : string) : string :=
  if reproject_inputs then dest_file fp else fp.

(** The body of the loop over [_lake_indices]; the state is
    [(lake_masks, lake_indices)]. *)
Definition lake_step (year0 year : Z)
           (st : gmap Z (list (Z * string)) * list Z) (lake_index : Z)
  : outcome (gmap Z (list (Z * string)) * list Z) :=
  let '(lake_masks, lake_indices) := st in
  let fp := file_path year lake_index in
  if year =? year0 then
    if isfile fp then
      Done (<[lake_index := [(year, mask_entry fp)]]> lake_masks,
            lake_indices ++ [lake_index])
    else Done st
  else if isfile fp then
    match lake_masks !! lake_index with
    | Some od =>
        Done (<[lake_index := od_set od year (mask_entry fp)]> lake_masks,
              lake_indices)
    | None => KeyError
    end
  else Done st.

Fixpoint lake_loop (year0 year : Z)
         (st : gmap Z (list (Z * string)) * list Z) (todo : list Z)
  : outcome (gmap Z (list (Z * string)) * list Z) :=
  match todo with
  | [] => Done st
  | lake_index :: rest =>
      match lake_step year0 year st lake_index with
      | Done st' => lake_loop year0 year st' rest
      | KeyError => KeyError
      end
  end.

Fixpoint year_loop (year0 : Z) (lo hi : Z)
         (st : gmap Z (list (Z * string)) * list Z) (years : list Z)
  : outcome (gmap Z (list (Z * string)) * list Z) :=
  match years with
  | [] => Done st
  | year :: rest =>
      let _lake_indices :=
        if year0 <? year then st.2 else zrange lo (hi + 1) in
      match lake_loop year0 year st _lake_indices with
      | Done st' => year_loop year0 lo hi st' rest
      | KeyError => KeyError
      end
  end.

(** The dictionary [lake_masks] that [process_lakes] hands to the pool,
    for [year_range = (year0, year1)] and
    [lake_index_range = (lo, hi)]. *)
Definition lake_masks (year0 year1 lo hi : Z)
  : outcome (gmap Z (list (Z * string))) :=
  match year_loop year0 lo hi (∅, []) (zrange year0 (year1 + 1)) with
  | Done st => Done st.1
  | KeyError => KeyError
  end.

(** The entries of the years in which the mask file of a lake exists. *)
Definition yearly_rows (lake_index : Z) (years : list Z)
  : list (Z * string) :=
  (fun y => (y, mask_entry (file_path y lake_index)))
    <$> filter (fun y => Is_true (isfile (file_path y lake_index))) years.

End Lakes.

End LakeMaskProcessor.

(* ------------------------------------------------------------------ *)
(** ** Labels as functions of the 10-degree cell *)

Module TileCells.
Import TileLocator.

(** The label of the column [[10k, 10k+10)] and of the row
    [(10j-10, 10j]]. *)
Definition lon_label_of_cell (k : Z) : string :=
  (format_03d (Z.abs (k * 10)) ++ (if (k <? 0)%Z then "W" else "E"))%string.

Definition lat_label_of_cell (j : Z) : string :=
  (format_03d (Z.abs (j * 10)) ++ (if (0 <? j)%Z then "N" else "S"))%string.

(** [range(lo, hi)] on integers. *)
Definition cells (lo hi : Z) : list Z :=
  map (fun i => lo + Z.of_nat i) (seq 0 (Z.to_nat (hi - lo))).

(** The ids of the columns [-18..17] and rows [jlo..jhi-1]. *)
Definition ids_of_cells (jlo jhi : Z) : list string :=
  flat_map (fun k => map (fun j => (lon_label_of_cell k
                                     ++ lat_label_of_cell j)%string)
                         (cells jlo jhi))
           (cells (-18) 18).

Definition listed (names : list string) (s : string) : bool :=
  existsb (String.eqb s) names.

End TileCells.

(* ------------------------------------------------------------------ *)
(** ** Floating-point evaluation of the pixel mapping

    A finite double is a rational number, and every arithmetic operation
    on doubles returns the exact result rounded to a double.  The
    definitions of this part are those of [Affine] and [GDALGrid] with a
    rounding [rnd] applied after every operation; comparisons and [int()]
    are exact.  With the identity for [rnd] they are the exact
    definitions; with [Binary64.round] they are the operations of Python
    floats (as long as no result overflows). *)

Module Binary64.

(** The nearest integer, ties to the even one. *)
Definition nearest_even (q : Q) : Z :=
  let fl := Qfloor q in
  match Qcompare (q - inject_Z fl) (1 # 2) with
  | Lt => fl
  | Gt => fl + 1
  | Eq => if Z.even fl then fl else fl + 1
  end.

Definition pow2 (k : Z) : Q := (2 ^ k)%Q.

(** [floor(log2 |q|)] for [q <> 0]. *)
Definition exponent (q : Q) : Z :=
  let e0 := Z.log2 (Z.abs (Qnum q)) - Z.log2 (Z.pos (Qden q)) in
  if Qle_bool (pow2 e0) (Qabs q) then e0 else e0 - 1.

(** Rounding to the nearest double (53 bits of precision, smallest
    exponent -1074), ties to even. *)
Definition round (q : Q) : Q :=
  if Qeq_bool q 0 then 0%Q
  else
    let ulp := Z.max (exponent q - 52) (-1074) in
    (inject_Z (nearest_even (q / pow2 ulp)) * pow2 ulp)%Q.

End Binary64.

Module Rounded.
Import GDALGrid.

Section Ops.
Variable rnd : Q -> Q.

(** [float(z)] *)
Definition of_int (z : Z) : Q := rnd (inject_Z z).

(** [m * (vx, vy)]: [vx * sa + vy * sb + sc] and [vx * sd + vy * se + sf] *)
Definition apply (m : Affine.t) (v : Q * Q) : Q * Q :=
  let (vx, vy) := v in
  (rnd (rnd (rnd (vx * Affine.a m) + rnd (vy * Affine.b m)) + Affine.c m),
   rnd (rnd (rnd (vx * Affine.d m) + rnd (vy * Affine.e m)) + Affine.f m))%Q.

Definition determinant (m : Affine.t) : Q :=
  rnd (rnd (Affine.a m * Affine.e m) - rnd (Affine.b m * Affine.d m))%Q.

Definition is_degenerate (m : Affine.t) : bool := Qeq_bool (determinant m) 0.

(** [~m] *)
Definition invert (m : Affine.t) : result Affine.t :=
  if is_degenerate m then Raise TransformNotInvertibleError
  else
    let idet := rnd (1 / determinant m)%Q in
    let ra := rnd (Affine.e m * idet)%Q in
    let rb := rnd (- Affine.b m * idet)%Q in
    let rd := rnd (- Affine.d m * idet)%Q in
    let re := rnd (Affine.a m * idet)%Q in
    Ok (Affine.mk ra rb
          (rnd (rnd (- Affine.c m * ra) - rnd (Affine.f m * rb)))%Q
          rd re
          (rnd (rnd (- Affine.c m * rd) - rnd (Affine.f m * re)))%Q).

Definition pixel2coord (self : Dataset) (col row : Z) : result (Q * Q) :=
  if x_size self <=? col then Raise IndexError
  else if y_size self <=? row then Raise IndexError
  else Ok (apply (affine self)
             (rnd (of_int col + (1 # 2))%Q, rnd (of_int row + (1 # 2))%Q)).

(** The position [(col, row)] that [coord2pixel] computes, tests and
    truncates. *)
Definition frac_index (self : Dataset) (x_coord y_coord : Q)
  : result (Q * Q) :=
  match invert (affine self) with
  | Raise err => Raise err
  | Ok inv => Ok (apply inv (x_coord, y_coord))
  end.

Definition coord2pixel (self : Dataset) (x_coord y_coord : Q)
  : result (Z * Z) :=
  match invert (affine self) with
  | Raise err => Raise err
  | Ok inv =>
      let (col, row) := apply inv (x_coord, y_coord) in
      if Qlt_le_dec (inject_Z (x_size self)) col then Raise IndexError
      else if Qlt_le_dec col 0 then Raise IndexError
      else if Qlt_le_dec (inject_Z (y_size self)) row then Raise IndexError
      else if Qlt_le_dec row 0 then Raise IndexError
      else Ok (py_int col, py_int row)
  end.

(** [bounds()] without reprojection; the corners are given as integers. *)
Definition bounds (self : Dataset) : Q * Q * Q * Q :=
  let '(x_min, y_min) :=
    apply (affine self) (of_int 0, of_int (RasterYSize self)) in
  let '(x_max, y_max) :=
    apply (affine self) (of_int (RasterXSize self), of_int 0) in
  (x_min, x_max, y_min, y_max).

End Ops.

End Rounded.

(* ------------------------------------------------------------------ *)
(** ** Grids, rasters and a disk used in the examples *)

(** A north-up 4 x 3 grid with 30 m pixels, a 2 x 2 grid with the identity
    transform, and a 1 x 1 grid whose rotation terms make the transform
    singular although its pixel width and height are 1. *)
Definition grid_30m : GDALGrid.Dataset :=
  GDALGrid.mkDataset (100, 30, 0, 500, 0, -30)%Q 4 3 EmptyString [].
Definition grid_unit : GDALGrid.Dataset :=
  GDALGrid.mkDataset (0, 1, 0, 0, 0, 1)%Q 2 2 EmptyString [].
Definition grid_singular : GDALGrid.Dataset :=
  GDALGrid.mkDataset (0, 1, 1, 0, 1, 1)%Q 1 1 EmptyString [].

(** A 4 x 4 grid with unit pixels whose origin is 1e16, where neighbouring
    doubles are 2 apart. *)
Definition grid_far : GDALGrid.Dataset :=
  GDALGrid.mkDataset (inject_Z (10 ^ 16), 1, 0, 0, 0, 1)%Q 4 4 EmptyString [].
Definition grid_far_north_up : GDALGrid.Dataset :=
  GDALGrid.mkDataset (inject_Z (10 ^ 16), 1, 0, 0, 0, -1)%Q 4 4 EmptyString [].

(** A one-band source whose band declares nodata 0, one whose band declares
    nodata 255, one whose band declares none, and a 2 x 2 reference grid. *)
Definition src_nodata_zero : GDALGrid.Dataset :=
  GDALGrid.mkDataset (0, 1, 0, 0, 0, 1)%Q 4 4 "EPSG:4326"
                     [GDALGrid.mkBand (Some 0%Q) 1].
Definition src_nodata_255 : GDALGrid.Dataset :=
  GDALGrid.mkDataset (0, 1, 0, 0, 0, 1)%Q 4 4 "EPSG:4326"
                     [GDALGrid.mkBand (Some 255%Q) 1].
Definition src_nodata_none : GDALGrid.Dataset :=
  GDALGrid.mkDataset (0, 1, 0, 0, 0, 1)%Q 4 4 "EPSG:4326"
                     [GDALGrid.mkBand None 1].
Definition match_2x2 : GDALGrid.Dataset :=
  GDALGrid.mkDataset (0, 2, 0, 0, 0, 2)%Q 2 2 "EPSG:4326"
                     [GDALGrid.mkBand None 1].

(** A small disk: two readable 2 x 2 rasters, a readable 3 x 3 raster and a
    damaged file; [missing.tif] is not on it. *)
Inductive tif : Type :=
| Readable (a : XRio.DataArray)
| Damaged.

Definition read_tif (c : tif) : option XRio.DataArray :=
  match c with
  | Readable a => Some a
  | Damaged => None
  end.

Definition raster_a : XRio.DataArray :=
  XRio.mkDataArray [2; 2]%nat [1 # 2; 3 # 2]%Q [3 # 2; 1 # 2]%Q [1; 2; 3; 4]%Q.
Definition raster_b : XRio.DataArray :=
  XRio.mkDataArray [2; 2]%nat [1 # 2; 3 # 2]%Q [3 # 2; 1 # 2]%Q [5; 6; 7; 8]%Q.
Definition raster_c : XRio.DataArray :=
  XRio.mkDataArray [3; 3]%nat [1 # 2; 3 # 2; 5 # 2]%Q [5 # 2; 3 # 2; 1 # 2]%Q
                   [1; 2; 3; 4; 5; 6; 7; 8; 9]%Q.

Definition disk : gmap string tif :=
  <["a.tif"%string := Readable raster_a]>
    (<["b.tif"%string := Readable raster_b]>
       (<["c.tif"%string := Readable raster_c]>
          (<["bad.tif"%string := Damaged]> ∅))).

Definition kw_default : XRio.Kwargs := XRio.mkKwargs false None None.
Definition kw_kill : XRio.Kwargs := XRio.mkKwargs true None None.
Definition kw_years : XRio.Kwargs :=
  XRio.mkKwargs false (Some [2001; 2002; 2003; 2004]) (Some "year"%string).

(* ================================================================== *)
(** * Properties *)

(* ------------------------------------------------------------------ *)
(** ** Rounding to 10-degree cells *)

Section Rounding.
Local Open Scope Q_scope.

Lemma Qdiv10_lt_0 (u : Q) : u < 0 -> u / 10 < 0.
Proof.
  intros Hu. apply Qlt_shift_div_r; [reflexivity | exact Hu].
Qed.

Lemma Qdiv10_ge_0 (u : Q) : 0 <= u -> 0 <= u / 10.
Proof.
  intros Hu. apply Qle_shift_div_l; [reflexivity | exact Hu].
Qed.

Lemma Qfloor_neg (q : Q) : q < 0 -> (Qfloor q < 0)%Z.
Proof.
  intros Hq.
  destruct (Z_lt_le_dec (Qfloor q) 0) as [|Hge]; [assumption|exfalso].
  pose proof (Qfloor_le q) as Hfl.
  assert (0 <= inject_Z (Qfloor q)) as H0.
  { change 0 with (inject_Z 0). rewrite <- Zle_Qle. exact Hge. }
  apply (Qlt_irrefl 0).
  eapply Qle_lt_trans; [exact H0|]. eapply Qle_lt_trans; eassumption.
Qed.

Lemma Qfloor_nonneg (q : Q) : 0 <= q -> (0 <= Qfloor q)%Z.
Proof.
  intros Hq. change 0%Z with (Qfloor (inject_Z 0)).
  apply Qfloor_resp_le. exact Hq.
Qed.

Lemma Qceiling_pos (q : Q) : 0 < q -> (0 < Qceiling q)%Z.
Proof.
  intros Hq. unfold Qceiling.
  assert (Qfloor (- q) < 0)%Z; [|lia].
  apply Qfloor_neg.
  change 0 with (- 0). apply Qopp_lt_compat. exact Hq.
Qed.

Lemma Qceiling_nonpos (q : Q) : q <= 0 -> (Qceiling q <= 0)%Z.
Proof.
  intros Hq. change 0%Z with (Qceiling (inject_Z 0)).
  apply Qceiling_resp_le. exact Hq.
Qed.

(** A value inside [[k, k+1)] has floor [k]. *)
Lemma Qfloor_unique (q : Q) (k : Z) :
  inject_Z k <= q -> q < inject_Z (k + 1) -> Qfloor q = k.
Proof.
  intros Hlo Hhi.
  pose proof (Qfloor_le q) as H1. pose proof (Qlt_floor q) as H2.
  assert (inject_Z k < inject_Z (Qfloor q + 1)) as A
    by (eapply Qle_lt_trans; eassumption).
  assert (inject_Z (Qfloor q) < inject_Z (k + 1)) as B
    by (eapply Qle_lt_trans; eassumption).
  rewrite <- Zlt_Qlt in A, B. lia.
Qed.

(** A value inside [(k-1, k]] has ceiling [k]. *)
Lemma Qceiling_unique (q : Q) (k : Z) :
  inject_Z (k - 1) < q -> q <= inject_Z k -> Qceiling q = k.
Proof.
  intros Hlo Hhi.
  pose proof (Qle_ceiling q) as H1. pose proof (Qceiling_lt q) as H2.
  assert (inject_Z (k - 1) < inject_Z (Qceiling q)) as A
    by (eapply Qlt_le_trans; eassumption).
  assert (inject_Z (Qceiling q - 1) < inject_Z k) as B
    by (eapply Qlt_le_trans; eassumption).
  rewrite <- Zlt_Qlt in A, B. lia.
Qed.

Lemma Qdiv10_cell_lo (u : Q) (k : Z) :
  inject_Z (10 * k) <= u -> inject_Z k <= u / 10.
Proof.
  intros H. apply Qle_shift_div_l; [reflexivity|].
  change (inject_Z k * inject_Z 10 <= u).
  rewrite <- inject_Z_mult. rewrite Z.mul_comm. exact H.
Qed.

Lemma Qdiv10_cell_hi (u : Q) (k : Z) :
  u < inject_Z (10 * k) -> u / 10 < inject_Z k.
Proof.
  intros H. apply Qlt_shift_div_r; [reflexivity|].
  change (u < inject_Z k * inject_Z 10).
  rewrite <- inject_Z_mult. rewrite Z.mul_comm. exact H.
Qed.

Lemma Qdiv10_cell_lo_strict (u : Q) (k : Z) :
  inject_Z (10 * k) < u -> inject_Z k < u / 10.
Proof.
  intros H. apply Qlt_shift_div_l; [reflexivity|].
  change (inject_Z k * inject_Z 10 < u).
  rewrite <- inject_Z_mult. rewrite Z.mul_comm. exact H.
Qed.

Lemma Qdiv10_cell_hi_le (u : Q) (k : Z) :
  u <= inject_Z (10 * k) -> u / 10 <= inject_Z k.
Proof.
  intros H. apply Qle_shift_div_r; [reflexivity|].
  change (u <= inject_Z k * inject_Z 10).
  rewrite <- inject_Z_mult. rewrite Z.mul_comm. exact H.
Qed.

End Rounding.

(* ------------------------------------------------------------------ *)
(** ** TileLocator: labels *)

Section Labels.
Import TileLocator.
Local Open Scope Q_scope.

Lemma lon_cell_sign (lon : Q) :
  (unwrap lon < 0 -> (lon_cell lon < 0)%Z) /\
  (0 <= unwrap lon -> (0 <= lon_cell lon)%Z).
Proof.
  unfold lon_cell. split; intros H.
  - apply Qfloor_neg, Qdiv10_lt_0, H.
  - apply Qfloor_nonneg, Qdiv10_ge_0, H.
Qed.

Lemma lat_cell_sign (lat : Q) :
  (0 < lat -> (0 < lat_cell lat)%Z) /\
  (lat <= 0 -> (lat_cell lat <= 0)%Z).
Proof.
  unfold lat_cell. split; intros H.
  - apply Qceiling_pos. apply Qlt_shift_div_l; [reflexivity | exact H].
  - apply Qceiling_nonpos. apply Qle_shift_div_r; [reflexivity | exact H].
Qed.

(** The longitude label is a function of the 10-degree column. *)
Lemma lon_label_cell (lon : Q) :
  lon_label lon =
    (format_03d (Z.abs (lon_cell lon * 10))
       ++ (if (lon_cell lon <? 0)%Z then "W" else "E"))%string.
Proof.
  destruct (lon_cell_sign lon) as [Hneg Hpos].
  unfold lon_label, floor10. fold (lon_cell lon).
  destruct (Qlt_le_dec (unwrap lon) 0) as [Hlt | Hge].
  - specialize (Hneg Hlt).
    destruct (Z.ltb_spec (lon_cell lon) 0); [reflexivity | lia].
  - specialize (Hpos Hge).
    destruct (Z.ltb_spec (lon_cell lon) 0); [lia | reflexivity].
Qed.

(** The latitude label is a function of the 10-degree row. *)
Lemma lat_label_cell (lat : Q) :
  lat_label lat =
    (format_03d (Z.abs (lat_cell lat * 10))
       ++ (if (0 <? lat_cell lat)%Z then "N" else "S"))%string.
Proof.
  destruct (lat_cell_sign lat) as [Hpos Hnonpos].
  unfold lat_label, ceil10. fold (lat_cell lat).
  destruct (Qlt_le_dec 0 lat) as [Hlt | Hge].
  - specialize (Hpos Hlt).
    destruct (Z.ltb_spec 0 (lat_cell lat)); [reflexivity | lia].
  - specialize (Hnonpos Hge).
    destruct (Z.ltb_spec 0 (lat_cell lat)); [lia | reflexivity].
Qed.

Lemma Qabs_div10_neg (u : Q) :
  u < 0 -> Qceiling (Qabs u / 10) = (- Qfloor (u / 10))%Z.
Proof.
  intros Hu. unfold Qceiling. f_equal. apply Qfloor_comp.
  rewrite Qabs_neg by (apply Qlt_le_weak; exact Hu).
  field.
Qed.

Lemma Qabs_div10_nonneg (u : Q) :
  0 <= u -> Qfloor (Qabs u / 10) = Qfloor (u / 10).
Proof.
  intros Hu. apply Qfloor_comp. rewrite Qabs_pos by exact Hu. reflexivity.
Qed.

End Labels.

(** C4 (as amended): the three labels of the description that the code
    produces, and the label it produces for latitude -5.1, which lies in the
    row whose upper edge is the equator. *)
Theorem label_examples :
  TileLocator.lon_label (-1254 # 10) = "130W"%string /\
  TileLocator.lon_label 174 = "170E"%string /\
  TileLocator.lat_label (499 # 10) = "050N"%string /\
  TileLocator.lat_label (-51 # 10) = "000S"%string.
Proof. repeat split; vm_compute; reflexivity. Qed.

(** C4, counterexample: [lat_label(-5.1)] is not ["010S"]. *)
Lemma lat_label_minus_5_1_not_010S :
  TileLocator.lat_label (-51 # 10) <> "010S"%string.
Proof. vm_compute. discriminate. Qed.



(* ------------------------------------------------------------------ *)
(** ** TileLocator: get_tiles *)

Section Tiles.
Import TileLocator.

Lemma set2_length (a b : string) : (length (set2 a b) <= 2)%nat.
Proof. unfold set2. destruct (String.eqb a b); simpl; lia. Qed.

Lemma set2_NoDup (a b : string) : NoDup (set2 a b).
Proof.
  unfold set2. destruct (String.eqb_spec a b) as [_ | Hne].
  - apply NoDup_singleton.
  - apply NoDup_cons; split; [|apply NoDup_singleton].
    intros Hin. apply list_elem_of_singleton in Hin. congruence.
Qed.

Lemma set2_In (a b x : string) : In x (set2 a b) <-> In x [a; b].
Proof.
  unfold set2. destruct (String.eqb_spec a b) as [-> | _]; simpl; tauto.
Qed.

Lemma flat_map_pairs_length {A B C : Type} (g : A -> B -> C)
      (xs : list A) (ys : list B) :
  length (flat_map (fun x => map (g x) ys) xs)
  = (length xs * length ys)%nat.
Proof.
  induction xs as [| x xs IH]; simpl; [reflexivity|].
  rewrite length_app, List.length_map, IH. reflexivity.
Qed.

Lemma flat_map_pairs_In {A B C : Type} (g : A -> B -> C)
      (xs : list A) (ys : list B) (t : C) :
  In t (flat_map (fun x => map (g x) ys) xs)
  <-> exists x y, In x xs /\ In y ys /\ t = g x y.
Proof.
  rewrite in_flat_map. split.
  - intros (x & Hx & Ht). apply in_map_iff in Ht as (y & <- & Hy).
    exists x, y. auto.
  - intros (x & y & Hx & Hy & ->). exists x. split; [exact Hx|].
    apply in_map_iff. exists y. auto.
Qed.

Lemma flat_map_pairs_perm {A B C : Type} (g : A -> B -> C)
      (xs xs' : list A) (ys ys' : list B) :
  Permutation xs xs' -> Permutation ys ys' ->
  Permutation (flat_map (fun x => map (g x) ys) xs)
              (flat_map (fun x => map (g x) ys') xs').
Proof.
  intros Hx Hy.
  transitivity (flat_map (fun x => map (g x) ys') xs).
  - clear Hx. induction xs as [| x xs IH]; simpl; [constructor|].
    apply Permutation_app; [|exact IH].
    apply Permutation_map. exact Hy.
  - apply Permutation_flat_map. exact Hx.
Qed.

Lemma perm_singleton_eq {A : Type} (l : list A) (a : A) :
  Permutation l [a] -> l = [a].
Proof. intros H. apply Permutation_sym in H. apply Permutation_length_1_inv in H. exact H. Qed.

Local Open Scope Q_scope.

Lemma lon_label_same_cell (x x' : Q) (k : Z) :
  inject_Z (10 * k) <= unwrap x < inject_Z (10 * k + 10) ->
  inject_Z (10 * k) <= unwrap x' < inject_Z (10 * k + 10) ->
  lon_label x = lon_label x'.
Proof.
  intros [Hlo Hhi] [Hlo' Hhi'].
  assert (forall u : Q, inject_Z (10 * k) <= u -> u < inject_Z (10 * k + 10)
                   -> Qfloor (u / 10) = k) as Hcell.
  { intros u H1 H2. apply Qfloor_unique.
    - apply Qdiv10_cell_lo, H1.
    - apply Qdiv10_cell_hi. replace (10 * (k + 1))%Z with (10 * k + 10)%Z by lia.
      exact H2. }
  rewrite !lon_label_cell. unfold lon_cell.
  rewrite (Hcell _ Hlo Hhi), (Hcell _ Hlo' Hhi'). reflexivity.
Qed.

Lemma lat_label_same_cell (y y' : Q) (j : Z) :
  inject_Z (10 * j - 10) < y <= inject_Z (10 * j) ->
  inject_Z (10 * j - 10) < y' <= inject_Z (10 * j) ->
  lat_label y = lat_label y'.
Proof.
  intros [Hlo Hhi] [Hlo' Hhi'].
  assert (forall u : Q, inject_Z (10 * j - 10) < u -> u <= inject_Z (10 * j)
                   -> Qceiling (u / 10) = j) as Hcell.
  { intros u H1 H2. apply Qceiling_unique.
    - apply Qdiv10_cell_lo_strict.
      replace (10 * (j - 1))%Z with (10 * j - 10)%Z by lia. exact H1.
    - apply Qdiv10_cell_hi_le, H2. }
  rewrite !lat_label_cell. unfold lat_cell.
  rewrite (Hcell _ Hlo Hhi), (Hcell _ Hlo' Hhi'). reflexivity.
Qed.

End Tiles.



(* ------------------------------------------------------------------ *)
(** ** GDALGrid: pixel and coordinate mapping *)

Section Grid.
Import GDALGrid.
Local Open Scope Q_scope.

Lemma py_int_floor (q : Q) : 0 <= q -> py_int q = Qfloor q.
Proof.
  destruct q as [n d]. unfold Qle, py_int, Qfloor. simpl.
  intros Hn. apply Z.quot_div_nonneg; lia.
Qed.

Lemma py_int_comp (p q : Q) : 0 <= p -> p == q -> py_int p = py_int q.
Proof.
  intros Hp Hpq.
  rewrite !py_int_floor; [apply Qfloor_comp, Hpq | rewrite <- Hpq | ]; exact Hp.
Qed.

(** Truncating a non-negative position below the size gives a valid
    index. *)
Lemma py_int_in_range (q : Q) (n : Z) :
  0 <= q -> q < inject_Z n -> (0 <= py_int q < n)%Z.
Proof.
  intros H0 Hn. rewrite (py_int_floor _ H0). split.
  - apply Qfloor_nonneg, H0.
  - rewrite Zlt_Qlt. eapply Qle_lt_trans; [apply Qfloor_le | exact Hn].
Qed.

Lemma py_int_half (k : Z) : (0 <= k)%Z -> py_int (inject_Z k + (1 # 2)) = k.
Proof.
  intros Hk.
  assert (0 <= inject_Z k) as Hk' by (change 0 with (inject_Z 0); rewrite <- Zle_Qle; exact Hk).
  rewrite py_int_floor.
  - apply Qfloor_unique.
    + rewrite <- (Qplus_0_r (inject_Z k)) at 1.
      apply Qplus_le_r. discriminate.
    + rewrite inject_Z_plus. apply Qplus_lt_r. reflexivity.
  - rewrite <- (Qplus_0_r 0). apply Qplus_le_compat; [exact Hk' | discriminate].
Qed.

Lemma invert_ok (m : Affine.t) :
  ~ Affine.determinant m == 0 ->
  exists inv, Affine.invert m = Ok inv /\
    forall vx vy,
      fst (Affine.apply inv (Affine.apply m (vx, vy))) == vx /\
      snd (Affine.apply inv (Affine.apply m (vx, vy))) == vy.
Proof.
  intros Hdet. unfold Affine.invert, Affine.is_degenerate.
  destruct (Qeq_bool (Affine.determinant m) 0) eqn:E.
  { apply Qeq_bool_iff in E. contradiction. }
  eexists. split; [reflexivity|].
  intros vx vy. unfold Affine.determinant in *.
  destruct m as [a b c d e f]. simpl in *. split; field; exact Hdet.
Qed.

Lemma invert_degenerate (m : Affine.t) :
  Affine.determinant m == 0 ->
  Affine.invert m = Raise TransformNotInvertibleError.
Proof.
  intros Hdet. unfold Affine.invert, Affine.is_degenerate.
  apply Qeq_bool_iff in Hdet. rewrite Hdet. reflexivity.
Qed.

(** Without rotation terms the transform is invertible exactly when the
    pixel width and height are not zero. *)
Lemma north_up_determinant (m : Affine.t) :
  Affine.b m == 0 -> Affine.d m == 0 ->
  (~ Affine.determinant m == 0 <->
   ~ Affine.a m == 0 /\ ~ Affine.e m == 0).
Proof.
  intros Hb Hd. unfold Affine.determinant.
  assert (Affine.a m * Affine.e m - Affine.b m * Affine.d m
          == Affine.a m * Affine.e m) as -> by (rewrite Hb, Hd; ring).
  split.
  - intros H. split; intros H0; apply H; rewrite H0; ring.
  - intros [Ha He] H. apply Qmult_integral in H. tauto.
Qed.

(** What [coord2pixel] does with the fractional position [(c, r)] it gets
    from the inverse transform. *)
Lemma coord2pixel_cases (g : Dataset) (x y c r : Q) :
  frac_index g x y = Ok (c, r) ->
  coord2pixel g x y =
    if Qlt_le_dec (inject_Z (x_size g)) c then Raise IndexError
    else if Qlt_le_dec c 0 then Raise IndexError
    else if Qlt_le_dec (inject_Z (y_size g)) r then Raise IndexError
    else if Qlt_le_dec r 0 then Raise IndexError
    else Ok (py_int c, py_int r).
Proof.
  unfold frac_index, coord2pixel.
  destruct (Affine.invert (affine g)) as [inv | err]; [|discriminate].
  intros H.
  assert (Affine.apply inv (x, y) = (c, r)) as -> by congruence.
  reflexivity.
Qed.

End Grid.


(* ------------------------------------------------------------------ *)
(** ** The pixel mapping under rounding *)

Section RoundedGrid.
Import GDALGrid.
Local Open Scope Q_scope.
Variable rnd : Q -> Q.

Lemma rounded_coord2pixel_cases (g : Dataset) (x y c r : Q) :
  Rounded.frac_index rnd g x y = Ok (c, r) ->
  Rounded.coord2pixel rnd g x y =
    if Qlt_le_dec (inject_Z (x_size g)) c then Raise IndexError
    else if Qlt_le_dec c 0 then Raise IndexError
    else if Qlt_le_dec (inject_Z (y_size g)) r then Raise IndexError
    else if Qlt_le_dec r 0 then Raise IndexError
    else Ok (py_int c, py_int r).
Proof.
  unfold Rounded.frac_index, Rounded.coord2pixel.
  destruct (Rounded.invert rnd (affine g)) as [inv | err]; [|discriminate].
  intros H.
  assert (Rounded.apply rnd inv (x, y) = (c, r)) as -> by congruence.
  reflexivity.
Qed.

Lemma rounded_coord2pixel_degenerate (g : Dataset) (x y : Q) :
  Rounded.is_degenerate rnd (affine g) = true ->
  Rounded.coord2pixel rnd g x y = Raise TransformNotInvertibleError.
Proof.
  intros H. unfold Rounded.coord2pixel, Rounded.invert. rewrite H. reflexivity.
Qed.

Lemma rounded_frac_index_defined (g : Dataset) (x y : Q) :
  Rounded.is_degenerate rnd (affine g) = false ->
  exists c r, Rounded.frac_index rnd g x y = Ok (c, r).
Proof.
  intros H. unfold Rounded.frac_index, Rounded.invert. rewrite H.
  match goal with |- context [Rounded.apply rnd ?m ?v] =>
    destruct (Rounded.apply rnd m v) as [c r] end.
  exists c, r. reflexivity.
Qed.

(** A position is truncated to the index [k >= 0] exactly when it lies in
    [[k, k + 1)]. *)
Lemma py_int_pixel (c : Q) (k : Z) :
  (0 <= k)%Z -> 0 <= c ->
  (py_int c = k <-> inject_Z k <= c < inject_Z k + 1).
Proof.
  intros Hk Hc. rewrite (py_int_floor _ Hc). split.
  - intros <-. split; [apply Qfloor_le|].
    change 1 with (inject_Z 1). rewrite <- inject_Z_plus. apply Qlt_floor.
  - intros [Hlo Hhi]. apply Qfloor_unique; [exact Hlo|].
    rewrite inject_Z_plus. exact Hhi.
Qed.

(** [coord2pixel] returns the in-bounds index [(col, row)] exactly when the
    position it computes lies in that pixel. *)
Lemma rounded_coord2pixel_pixel (g : Dataset) (x y c r : Q) (col row : Z) :
  (0 <= col < x_size g)%Z -> (0 <= row < y_size g)%Z ->
  Rounded.frac_index rnd g x y = Ok (c, r) ->
  (Rounded.coord2pixel rnd g x y = Ok (col, row) <->
   inject_Z col <= c < inject_Z col + 1 /\
   inject_Z row <= r < inject_Z row + 1).
Proof.
  intros Hc Hr Hfrac. rewrite (rounded_coord2pixel_cases g x y c r Hfrac).
  assert (forall k n : Z, (0 <= k < n)%Z ->
            0 <= inject_Z k /\ inject_Z k + 1 <= inject_Z n) as Hix.
  { intros k n [H0 H1]. split.
    - change 0 with (inject_Z 0). rewrite <- Zle_Qle. exact H0.
    - change 1 with (inject_Z 1). rewrite <- inject_Z_plus, <- Zle_Qle. lia. }
  destruct (Hix _ _ Hc) as [Hc0 Hc1]. destruct (Hix _ _ Hr) as [Hr0 Hr1].
  destruct (Qlt_le_dec (inject_Z (x_size g)) c) as [Hx|Hx].
  { split; [discriminate|]. intros [[_ H] _]. exfalso. lra. }
  destruct (Qlt_le_dec c 0) as [Hc'|Hc'].
  { split; [discriminate|]. intros [[H _] _]. exfalso. lra. }
  destruct (Qlt_le_dec (inject_Z (y_size g)) r) as [Hy|Hy].
  { split; [discriminate|]. intros [_ [_ H]]. exfalso. lra. }
  destruct (Qlt_le_dec r 0) as [Hr'|Hr'].
  { split; [discriminate|]. intros [_ [H _]]. exfalso. lra. }
  split.
  - intros [= Ec Er]. split.
    + apply (py_int_pixel c col); [lia | exact Hc' | exact Ec].
    + apply (py_int_pixel r row); [lia | exact Hr' | exact Er].
  - intros [Ec Er].
    apply (py_int_pixel c col) in Ec; [|lia | exact Hc'].
    apply (py_int_pixel r row) in Er; [|lia | exact Hr'].
    rewrite Ec, Er. reflexivity.
Qed.

(** With no rounding the definitions are the exact ones. *)
Hypothesis exact : forall q, rnd q = q.

Lemma exact_apply (m : Affine.t) (v : Q * Q) :
  Rounded.apply rnd m v = Affine.apply m v.
Proof.
  destruct v as [vx vy]. unfold Rounded.apply, Affine.apply.
  rewrite !exact. reflexivity.
Qed.

Lemma exact_invert (m : Affine.t) : Rounded.invert rnd m = Affine.invert m.
Proof.
  unfold Rounded.invert, Rounded.is_degenerate, Rounded.determinant,
    Affine.invert, Affine.is_degenerate, Affine.determinant.
  rewrite !exact. reflexivity.
Qed.

Lemma exact_pixel2coord (g : Dataset) (col row : Z) :
  Rounded.pixel2coord rnd g col row = pixel2coord g col row.
Proof.
  unfold Rounded.pixel2coord, pixel2coord, Rounded.of_int.
  rewrite exact_apply, !exact. reflexivity.
Qed.

Lemma exact_frac_index (g : Dataset) (x y : Q) :
  Rounded.frac_index rnd g x y = frac_index g x y.
Proof.
  unfold Rounded.frac_index, frac_index. rewrite exact_invert.
  destruct (Affine.invert (affine g)); [rewrite exact_apply|]; reflexivity.
Qed.

Lemma exact_coord2pixel (g : Dataset) (x y : Q) :
  Rounded.coord2pixel rnd g x y = coord2pixel g x y.
Proof.
  unfold Rounded.coord2pixel, coord2pixel. rewrite exact_invert.
  destruct (Affine.invert (affine g)); [rewrite exact_apply|]; reflexivity.
Qed.

Lemma exact_bounds (g : Dataset) : Rounded.bounds rnd g = GridExtent.bounds g.
Proof.
  unfold Rounded.bounds, GridExtent.bounds, Rounded.of_int.
  rewrite !exact_apply, !exact. reflexivity.
Qed.

End RoundedGrid.

(** In exact arithmetic the position that [coord2pixel] computes for the
    centre of pixel [(col, row)] is [(col + 1/2, row + 1/2)]. *)
Lemma exact_position (g : GDALGrid.Dataset) (col row : Z) (x y c r : Q) :
  GDALGrid.pixel2coord g col row = Ok (x, y) ->
  GDALGrid.frac_index g x y = Ok (c, r) ->
  (c == inject_Z col + (1 # 2) /\ r == inject_Z row + (1 # 2))%Q.
Proof.
  unfold GDALGrid.pixel2coord, GDALGrid.frac_index.
  destruct (GDALGrid.x_size g <=? col); [discriminate|].
  destruct (GDALGrid.y_size g <=? row); [discriminate|].
  intros Hpix.
  destruct (Affine.invert (GDALGrid.affine g)) as [inv | err] eqn:Hinv;
    [|discriminate].
  intros Hfrac.
  assert (Affine.apply (GDALGrid.affine g)
            (inject_Z col + (1 # 2), inject_Z row + (1 # 2))%Q = (x, y))
    as Hxy by congruence.
  assert (Affine.apply inv (x, y) = (c, r)) as Hcr by congruence.
  assert (~ (Affine.determinant (GDALGrid.affine g) == 0)%Q) as Hdet.
  { intros E. rewrite (invert_degenerate _ E) in Hinv. discriminate. }
  destruct (invert_ok _ Hdet) as (inv' & Hinv' & Hrt).
  assert (inv' = inv) as -> by congruence.
  destruct (Hrt (inject_Z col + (1 # 2))%Q (inject_Z row + (1 # 2))%Q)
    as [Hcol Hrow].
  rewrite Hxy, Hcr in Hcol, Hrow. simpl in Hcol, Hrow. split; assumption.
Qed.



(** C1, within the tolerance: on the 30 m grid, with every operation
    rounded to the nearest double, the round trip returns every one of the
    twelve pixels. *)
Lemma grid_30m_roundtrip_doubles (col row : Z) :
  0 <= col < GDALGrid.x_size grid_30m ->
  0 <= row < GDALGrid.y_size grid_30m ->
  exists x y : Q,
    Rounded.pixel2coord Binary64.round grid_30m col row = Ok (x, y) /\
    Rounded.coord2pixel Binary64.round grid_30m x y = Ok (col, row).
Proof.
  change (GDALGrid.x_size grid_30m) with 4.
  change (GDALGrid.y_size grid_30m) with 3.
  intros Hc Hr.
  assert (col = 0 \/ col = 1 \/ col = 2 \/ col = 3) as Ec by lia.
  assert (row = 0 \/ row = 1 \/ row = 2) as Er by lia.
  destruct Ec as [-> | [-> | [-> | ->]]], Er as [-> | [-> | ->]];
    eexists _, _; (split; [vm_compute; reflexivity|]); vm_compute; reflexivity.
Qed.

(** C1, beyond the tolerance: on the 4 x 4 grid with unit pixels and origin
    1e16 the transform is invertible and pixel (1,0) is in bounds, but with
    every operation rounded to the nearest double the centre of pixel (1,0)
    is computed as (1e16 + 2, 0.5), the position of that coordinate as
    (2, 0.5), and the round trip returns (2,0). *)
Lemma far_grid_roundtrip_off_by_one :
  Rounded.is_degenerate Binary64.round (GDALGrid.affine grid_far) = false /\
  0 <= 1 < GDALGrid.x_size grid_far /\
  0 <= 0 < GDALGrid.y_size grid_far /\
  exists x y c r : Q,
    Rounded.pixel2coord Binary64.round grid_far 1 0 = Ok (x, y) /\
    (x == inject_Z (10 ^ 16 + 2))%Q /\ (y == 1 # 2)%Q /\
    Rounded.frac_index Binary64.round grid_far x y = Ok (c, r) /\
    (c == 2)%Q /\ (r == 1 # 2)%Q /\
    Rounded.coord2pixel Binary64.round grid_far x y = Ok (2, 0).
Proof.
  split; [vm_compute; reflexivity|].
  split; [vm_compute; split; congruence|].
  split; [vm_compute; split; congruence|].
  eexists _, _, _, _.
  split; [vm_compute; reflexivity|].
  split; [vm_compute; reflexivity|].
  split; [vm_compute; reflexivity|].
  split; [vm_compute; reflexivity|].
  split; [vm_compute; reflexivity|].
  split; vm_compute; reflexivity.
Qed.


(** X7: what the bounds test of [coord2pixel] accepts and refuses, in terms
    of the fractional position [(c, r)]: it raises when a component is negative
    or greater than the size, and returns an in-bounds index when both
    components lie in [[0, size)]. *)
Lemma coord2pixel_checks (g : GDALGrid.Dataset) (x y c r : Q) :
  GDALGrid.frac_index g x y = Ok (c, r) ->
  ((c < 0 \/ inject_Z (GDALGrid.x_size g) < c \/
    r < 0 \/ inject_Z (GDALGrid.y_size g) < r)%Q ->
   GDALGrid.coord2pixel g x y = Raise IndexError) /\
  ((0 <= c < inject_Z (GDALGrid.x_size g))%Q ->
   (0 <= r < inject_Z (GDALGrid.y_size g))%Q ->
   GDALGrid.coord2pixel g x y = Ok (GDALGrid.py_int c, GDALGrid.py_int r) /\
   GDALGrid.in_bounds g (GDALGrid.py_int c, GDALGrid.py_int r)).
Proof.
  intros Hfrac. rewrite (coord2pixel_cases g x y c r Hfrac). split.
  - intros Hout.
    destruct (Qlt_le_dec (inject_Z (GDALGrid.x_size g)) c) as [|Hx]; [reflexivity|].
    destruct (Qlt_le_dec c 0) as [|Hc]; [reflexivity|].
    destruct (Qlt_le_dec (inject_Z (GDALGrid.y_size g)) r) as [|Hy]; [reflexivity|].
    destruct (Qlt_le_dec r 0) as [|Hr]; [reflexivity|].
    exfalso. destruct Hout as [H | [H | [H | H]]].
    + apply (Qlt_irrefl c). eapply Qlt_le_trans; eassumption.
    + apply (Qlt_irrefl c). eapply Qle_lt_trans; eassumption.
    + apply (Qlt_irrefl r). eapply Qlt_le_trans; eassumption.
    + apply (Qlt_irrefl r). eapply Qle_lt_trans; eassumption.
  - intros [Hc0 Hc1] [Hr0 Hr1].
    destruct (Qlt_le_dec (inject_Z (GDALGrid.x_size g)) c) as [Hbad|_].
    { exfalso. apply (Qlt_irrefl c). eapply Qlt_trans; eassumption. }
    destruct (Qlt_le_dec c 0) as [Hbad|_].
    { exfalso. apply (Qlt_irrefl c). eapply Qlt_le_trans; eassumption. }
    destruct (Qlt_le_dec (inject_Z (GDALGrid.y_size g)) r) as [Hbad|_].
    { exfalso. apply (Qlt_irrefl r). eapply Qlt_trans; eassumption. }
    destruct (Qlt_le_dec r 0) as [Hbad|_].
    { exfalso. apply (Qlt_irrefl r). eapply Qlt_le_trans; eassumption. }
    split; [reflexivity|]. split; simpl; apply py_int_in_range; assumption.
Qed.

(** C7, the code at the failing input: a coordinate on the right edge of the
    2 x 2 unit grid has fractional column 2 = width; the test [col > x_size]
    lets it through and the returned column 2 is not an index of the grid. *)
Theorem coord2pixel_right_edge :
  (exists c r : Q, GDALGrid.frac_index grid_unit 2 (1 # 2) = Ok (c, r) /\
                   (c == 2)%Q /\ (r == 1 # 2)%Q) /\
  GDALGrid.coord2pixel grid_unit 2 (1 # 2) = Ok (2, 0) /\
  ~ GDALGrid.in_bounds grid_unit (2, 0) /\
  GDALGrid.pixel2coord grid_unit 2 0 = Raise IndexError.
Proof.
  split; [eexists _, _; split; [vm_compute; reflexivity | split; reflexivity]|].
  split; [vm_compute; reflexivity|].
  split; [|vm_compute; reflexivity].
  unfold GDALGrid.in_bounds. simpl. vm_compute. intros [[_ H] _]. discriminate H.
Qed.

(* ------------------------------------------------------------------ *)
(** ** resample_grid: nodata of the destination bands *)

Section Nodata.
Import GDALGrid Resample.


Lemma nodata_step_bands (src dst : Dataset) (band_i : nat) :
  Bands (nodata_step src dst band_i)
  = alter (fun bd => mkBand (Some (assigned_nodata src (band_i - 1)))
                            (DataType bd))
          (band_i - 1)%nat (Bands dst).
Proof.
  unfold nodata_step, SetNoDataValue, assigned_nodata, truthy. simpl.
  destruct ((Bands src !! (band_i - 1)%nat) ≫= GetNoDataValue) as [v|];
    simpl; [|reflexivity].
  destruct (Qeq_bool v 0); reflexivity.
Qed.

Lemma nodata_loop_bands (src dst : Dataset) (n : nat) :
  let d := foldl (nodata_step src) dst (seq 1 n) in
  length (Bands d) = length (Bands dst) /\
  forall i : nat,
    Bands d !! i =
      if decide (i < n)%nat
      then (fun bd => mkBand (Some (assigned_nodata src i)) (DataType bd))
             <$> (Bands dst !! i)
      else Bands dst !! i.
Proof.
  induction n as [| n IH].
  - simpl. split; [reflexivity|]. intros i.
    destruct (decide (i < 0)%nat); [lia | reflexivity].
  - cbv zeta in *. rewrite seq_S, foldl_app. simpl foldl.
    destruct IH as [IHlen IHget].
    set (d := foldl (nodata_step src) dst (seq 1 n)) in *.
    rewrite nodata_step_bands.
    change (1 + n)%nat with (S n).
    replace (S n - 1)%nat with n by lia.
    split; [rewrite length_alter; exact IHlen|].
    intros i. destruct (decide (i = n)) as [-> | Hne].
    + rewrite list_lookup_alter_eq, IHget.
      destruct (decide (n < n)%nat); [lia|].
      destruct (decide (n < S n)%nat); [|lia].
      destruct (Bands dst !! n); reflexivity.
    + rewrite list_lookup_alter_ne by congruence. rewrite IHget.
      destruct (decide (i < n)%nat), (decide (i < S n)%nat);
        try lia; reflexivity.
Qed.

(** X10: every destination band gets the source band's value when that
    value is declared and not zero, and -9999 otherwise. *)
Lemma resample_grid_nodata (src match_ds dst : Dataset)
      (output_datatype : option nat) (band_i : nat) :
  resample_grid src match_ds output_datatype = Ok dst ->
  (1 <= band_i <= RasterCount src)%nat ->
  RasterCount dst = RasterCount src /\
  dst_nodata dst band_i = Some (assigned_nodata src (band_i - 1)).
Proof.
  unfold resample_grid. intros Hres Hband.
  assert (exists dt,
    dst = foldl (nodata_step src)
            (SetProjection (GetProjection match_ds)
               (SetGeoTransform (GetGeoTransform match_ds)
                  (Create (RasterXSize match_ds) (RasterYSize match_ds)
                          (RasterCount src) dt)))
            (seq 1 (RasterCount src))) as [dt ->].
  { destruct output_datatype as [dt|], (Bands src !! 0%nat) as [b0|];
      try discriminate; injection Hres as <-; eexists;
      unfold RasterCount at 2; simpl; rewrite length_replicate; reflexivity. }
  match goal with |- context [foldl _ ?d0 _] => set (dst0 := d0) end.
  destruct (nodata_loop_bands src dst0 (RasterCount src)) as [Hlen Hget].
  assert (Bands dst0 = replicate (RasterCount src) (mkBand None dt)) as Hb0
    by reflexivity.
  split.
  - unfold RasterCount at 1. rewrite Hlen, Hb0, length_replicate. reflexivity.
  - unfold dst_nodata. rewrite Hget.
    destruct (decide (band_i - 1 < RasterCount src)%nat); [|lia].
    rewrite Hb0, lookup_replicate_2 by lia. reflexivity.
Qed.

End Nodata.


(** C8, the code at the failing input: the source band declares nodata 0,
    and the destination band is given -9999, as it is for a band that
    declares none; a declared 255 is kept. *)
Theorem resample_grid_declared_zero :
  (exists dst, Resample.resample_grid src_nodata_zero match_2x2 None = Ok dst
               /\ Resample.dst_nodata dst 1 = Some (-9999)%Q) /\
  (exists dst, Resample.resample_grid src_nodata_none match_2x2 None = Ok dst
               /\ Resample.dst_nodata dst 1 = Some (-9999)%Q) /\
  (exists dst, Resample.resample_grid src_nodata_255 match_2x2 None = Ok dst
               /\ Resample.dst_nodata dst 1 = Some 255%Q).
Proof.
  repeat split; eexists; (split; [vm_compute; reflexivity | reflexivity]).
Qed.

(* ------------------------------------------------------------------ *)
(** ** XRio: loading *)

Section Loading.
Import XRio.
Context {Content : Type}.
Variable read : Content -> option DataArray.

Abbreviation try_open' := (try_open Content read).

Lemma open_keep (iF : nat) (p : string) (kw : Kwargs)
      (files : gmap string Content) :
  kill_zombies kw = false ->
  open Content read iF p kw files = (files, Ok (try_open' files p)).
Proof.
  intros Hk. unfold open. rewrite Hk.
  destruct (try_open' files p); reflexivity.
Qed.


Lemma load_loop_keep (todo : list (nat * string)) (kw : Kwargs)
      (files : gmap string Content) (acc : option Stack) :
  kill_zombies kw = false ->
  load_loop Content read todo kw files acc
  = (files, Ok (foldl absorb acc (omap (fun ip => try_open' files ip.2) todo))).
Proof.
  intros Hk. revert acc.
  induction todo as [| [iF p] rest IH]; intros acc; simpl; [reflexivity|].
  rewrite (open_keep _ _ _ _ Hk).
  destruct (try_open' files p) as [a|]; simpl; rewrite IH; reflexivity.
Qed.

Lemma absorb_all_some (s : Stack) (l : list DataArray) :
  axis s = "time"%string -> index s = None ->
  foldl absorb (Some s) l = Some (mkStack "time" None (frames s ++ l)).
Proof.
  revert s. induction l as [| a l IH]; intros [ax ix fr] Hax Hix;
    simpl in Hax, Hix; subst.
  - simpl. rewrite app_nil_r. reflexivity.
  - change (foldl absorb (Some (mkStack "time" None fr)) (a :: l))
      with (foldl absorb (Some (concat (mkStack "time" None fr)
                                       (expand_dims a))) l).
    rewrite IH by reflexivity. simpl. rewrite <- app_assoc. reflexivity.
Qed.

Lemma absorb_all (l : list DataArray) :
  foldl absorb None l =
    match l with
    | [] => None
    | _ :: _ => Some (mkStack "time" None l)
    end.
Proof.
  destruct l as [| a l]; [reflexivity|].
  change (foldl absorb None (a :: l))
    with (foldl absorb (Some (expand_dims a)) l).
  rewrite absorb_all_some by reflexivity. reflexivity.
Qed.

Lemma omap_enumerate_from {A B : Type} (f : A -> option B) (l : list A)
      (k : nat) :
  omap (fun ip : nat * A => f ip.2) (zip (seq k (length l)) l) = omap f l.
Proof.
  revert k. induction l as [| a l IH]; intros k; simpl; [reflexivity|].
  rewrite IH. reflexivity.
Qed.

Lemma load_keep (fp : FilePaths) (kw : Kwargs)
      (files : gmap string Content) :
  kill_zombies kw = false ->
  load Content read fp kw files =
    (files,
     Ok (match opened read files (as_list fp) with
         | [] => None
         | l => Some (mkStack "time" None l)
         end)).
Proof.
  intros Hk. unfold load, enumerate. rewrite (load_loop_keep _ _ _ _ Hk).
  rewrite omap_enumerate_from, absorb_all. unfold opened.
  destruct (omap (try_open' files) (as_list fp)); reflexivity.
Qed.

Lemma opened_failures_length (files : gmap string Content)
      (paths : list string) :
  (length (opened read files paths) + failures read files paths
   = length paths)%nat.
Proof.
  unfold opened, failures.
  induction paths as [| p paths IH]; simpl; [reflexivity|].
  rewrite filter_cons.
  destruct (decide (try_open' files p = None)) as [E | E].
  - rewrite E. unfold omap in *. simpl. lia.
  - destruct (try_open' files p); [|congruence]. unfold omap in *. simpl. lia.
Qed.

Lemma load1_loop_keep (todo : list (nat * string)) (kw : Kwargs)
      (files : gmap string Content) (acc : list DataArray)
      (mask : list bool) :
  kill_zombies kw = false ->
  exists mask',
    load1_loop Content read todo kw files acc mask
    = (files,
       Ok (acc ++ omap (fun ip => try_open' files ip.2) todo, mask')).
Proof.
  intros Hk. revert acc mask.
  induction todo as [| [iF p] rest IH]; intros acc mask; simpl.
  - exists mask. rewrite app_nil_r. reflexivity.
  - rewrite (open_keep _ _ _ _ Hk).
    destruct (try_open' files p) as [a|]; simpl.
    + destruct (IH (acc ++ [a]) mask) as [mask' ->].
      exists mask'. rewrite <- app_assoc. reflexivity.
    + apply IH.
Qed.

Lemma forallb_false_elem {A : Type} (f : A -> bool) (l : list A) :
  forallb f l = false -> exists a, In a l /\ f a = false.
Proof.
  induction l as [| a l IH]; simpl; [discriminate|].
  destruct (f a) eqn:E; simpl.
  - intros H. destruct (IH H) as (b & Hb & Hf). exists b. auto.
  - intros _. exists a. auto.
Qed.

Lemma mergable_false_iff (arrays : list DataArray) :
  mergable arrays = false <->
  exists a b, a ∈ arrays /\ b ∈ arrays /\ shape a <> shape b.
Proof.
  destruct arrays as [| a0 rest]; simpl.
  - split; [discriminate|]. intros (a & _ & Ha & _). inversion Ha.
  - set (l := a0 :: rest).
    change (forallb (fun a => bool_decide (shape a = shape a0)) l = false
            <-> exists a b, a ∈ l /\ b ∈ l /\ shape a <> shape b).
    assert (a0 ∈ l) as H0 by (subst l; left).
    destruct (forallb (fun a => bool_decide (shape a = shape a0)) l) eqn:E.
    + split; [discriminate|]. intros (a & b & Ha & Hb & Hne). exfalso.
      rewrite forallb_forall in E.
      apply list_elem_of_In in Ha, Hb.
      pose proof (E a Ha) as Ea. pose proof (E b Hb) as Eb.
      apply bool_decide_eq_true in Ea, Eb. congruence.
    + split; [|reflexivity]. intros _.
      apply forallb_false_elem in E as (a & Ha & Hne).
      exists a, a0. split; [apply list_elem_of_In, Ha|]. split; [exact H0|].
      apply bool_decide_eq_false in Hne. exact Hne.
Qed.

End Loading.


(** C2 (as amended): when failed files are not deleted ([kill_zombies] off,
    the default), [load] raises for no path and leaves the disk alone;
    of [n] paths of which [k] fail to open, [n-k] open; when [k < n] the
    result is the time stack of exactly those [n-k] arrays in the order of
    their paths, and when [k = n] the result is [None]. *)
Theorem load_skips_failed_files {Content : Type}
  (read : Content -> option XRio.DataArray)
  (files : gmap string Content) (fp : XRio.FilePaths) (kw : XRio.Kwargs) :
  XRio.kill_zombies kw = false ->
  let paths := XRio.as_list fp in
  let n := length paths in
  let k := XRio.failures read files paths in
  let ok := omap (XRio.try_open Content read files) paths in
  length ok = (n - k)%nat /\
  XRio.load Content read fp kw files
  = (files,
     Ok (if decide (k < n)%nat
         then Some (XRio.mkStack "time" None ok)
         else None)).
Proof.
  intros Hk paths n k ok.
  pose proof (opened_failures_length read files paths) as Hlen.
  fold k n in Hlen. unfold XRio.opened in Hlen. fold ok in Hlen.
  split; [lia|].
  rewrite (load_keep read fp kw files Hk).
  unfold XRio.opened. fold paths ok.
  destruct ok as [| a ok']; simpl in Hlen.
  - destruct (decide (k < n)%nat); [lia | reflexivity].
  - destruct (decide (k < n)%nat); [reflexivity | lia].
Qed.

(** C2, witness: four paths, the second damaged and the third missing. *)
Lemma load_skips_failed_files_witness :
  length [raster_a; raster_b] = (4 - 2)%nat /\
  XRio.load tif read_tif
    (XRio.PathList ["a.tif"; "bad.tif"; "missing.tif"; "b.tif"]%string)
    kw_default disk
  = (disk, Ok (Some (XRio.mkStack "time" None [raster_a; raster_b]))).
Proof.
  exact (load_skips_failed_files read_tif disk
           (XRio.PathList ["a.tif"; "bad.tif"; "missing.tif"; "b.tif"]%string)
           kw_default eq_refl).
Defined.

(** C2, counterexample: two paths, both failing ([n = k = 2]); [load]
    returns [None], not a stack of [n - k = 0] entries. *)
Lemma load_all_failed_is_None :
  XRio.failures read_tif disk ["bad.tif"; "missing.tif"]%string = 2%nat /\
  (XRio.load tif read_tif (XRio.PathList ["bad.tif"; "missing.tif"]%string)
             kw_default disk).2 = Ok None /\
  ~ exists s : XRio.Stack,
      (XRio.load tif read_tif (XRio.PathList ["bad.tif"; "missing.tif"]%string)
                 kw_default disk).2 = Ok (Some s)
      /\ length (XRio.frames s) = (2 - 2)%nat.
Proof.
  assert ((XRio.load tif read_tif
             (XRio.PathList ["bad.tif"; "missing.tif"]%string)
             kw_default disk).2 = Ok None) as E by (vm_compute; reflexivity).
  split; [vm_compute; reflexivity|]. split; [exact E|].
  intros (s & Hs & _). rewrite E in Hs. discriminate.
Qed.

(** With [kill_zombies] off: no opened file gives [None] (also for an empty
    path list), and exactly one opened file gives that array under a new
    leading [time] axis of length 1. *)
Lemma load_none_or_single {Content : Type}
  (read : Content -> option XRio.DataArray)
  (files : gmap string Content) (fp : XRio.FilePaths) (kw : XRio.Kwargs) :
  XRio.kill_zombies kw = false ->
  (XRio.opened read files (XRio.as_list fp) = [] ->
   XRio.load Content read fp kw files = (files, Ok None)) /\
  (forall a : XRio.DataArray,
     XRio.opened read files (XRio.as_list fp) = [a] ->
     XRio.load Content read fp kw files
       = (files, Ok (Some (XRio.expand_dims a))) /\
     XRio.axis (XRio.expand_dims a) = "time"%string /\
     XRio.frames (XRio.expand_dims a) = [a] /\
     XRio.stack_shape (XRio.expand_dims a) = 1%nat :: XRio.shape a).
Proof.
  intros Hk. rewrite (load_keep read fp kw files Hk). split.
  - intros ->. reflexivity.
  - intros a ->. repeat split; reflexivity.
Qed.

(** C9, the code at the failing input: with [kill_zombies] on, the path
    [missing.tif] fails to open, [os.remove] raises in the handler, and
    [load] raises instead of returning [None]; the same happens after a
    file has opened. *)
Theorem load_kill_zombies_missing_file :
  XRio.opened read_tif disk ["missing.tif"%string] = [] /\
  XRio.load tif read_tif (XRio.PathList ["missing.tif"%string]) kw_kill disk
    = (disk, Raise FileNotFoundError) /\
  XRio.opened read_tif disk ["a.tif"; "missing.tif"]%string = [raster_a] /\
  XRio.load tif read_tif (XRio.PathList ["a.tif"; "missing.tif"]%string)
            kw_kill disk
    = (disk, Raise FileNotFoundError).
Proof. repeat split; vm_compute; reflexivity. Qed.

(** C3 (as amended): [load1] asserts [mergable] before it calls [merge]:
    when more than one file opened and two of the opened arrays differ in
    shape, it raises [AssertionError] and returns no stack ([kill_zombies]
    off). *)
Theorem load1_asserts_mergable {Content : Type}
  (read : Content -> option XRio.DataArray)
  (files : gmap string Content) (fp : XRio.FilePaths) (kw : XRio.Kwargs) :
  XRio.kill_zombies kw = false ->
  let ok := XRio.opened read files (XRio.as_list fp) in
  (1 < length ok)%nat ->
  XRio.mergable ok = false ->
  (exists a b, a ∈ ok /\ b ∈ ok /\ XRio.shape a <> XRio.shape b) /\
  XRio.load1 Content read fp kw files = (files, Raise AssertionError).
Proof.
  intros Hk ok Hlen Hmerge.
  split; [apply mergable_false_iff, Hmerge|].
  unfold XRio.load1, XRio.enumerate.
  destruct (load1_loop_keep read
              (zip (seq 0 (length (XRio.as_list fp))) (XRio.as_list fp))
              kw files [] (replicate (length (XRio.as_list fp)) true) Hk)
    as [mask' ->].
  rewrite omap_enumerate_from. simpl app.
  change (omap (XRio.try_open Content read files) (XRio.as_list fp)) with ok.
  rewrite Hmerge.
  destruct (Nat.ltb_spec 1 (length ok)); [reflexivity | lia].
Qed.

(** C3, witness: a 2 x 2 and a 3 x 3 raster. *)
Lemma load1_asserts_mergable_witness :
  (exists a b, a ∈ [raster_a; raster_c] /\ b ∈ [raster_a; raster_c]
               /\ XRio.shape a <> XRio.shape b) /\
  XRio.load1 tif read_tif (XRio.PathList ["a.tif"; "c.tif"]%string)
             kw_default disk
  = (disk, Raise AssertionError).
Proof.
  apply (load1_asserts_mergable read_tif disk
           (XRio.PathList ["a.tif"; "c.tif"]%string) kw_default eq_refl).
  - vm_compute. lia.
  - vm_compute. reflexivity.
Defined.

(** C3, counterexample: [mergable] is false on a 2 x 2 and a 3 x 3 raster,
    and [merge], which does not look at shapes, hands them to [xr.concat]
    and returns the stack it builds. *)
Lemma merge_does_not_check_shapes :
  XRio.mergable [raster_a; raster_c] = false /\
  XRio.merge [raster_a; raster_c] kw_default None
  = Ok (XRio.mkStack "time" (Some [0; 1]) [raster_a; raster_c]).
Proof. split; vm_compute; reflexivity. Qed.

(* ------------------------------------------------------------------ *)
(** ** XRio: subset sorts its bound lists in place *)

Section Sorting.
Import XRio.
Local Open Scope Q_scope.


Lemma before_ordered (r : bool) (p q : Q) :
  before r p q = true -> ordered r p q.
Proof.
  unfold before, ordered. destruct r; intros H; apply Qle_bool_iff, H.
Qed.

Lemma not_before_ordered (r : bool) (p q : Q) :
  before r p q = false -> ordered r q p.
Proof.
  unfold before, ordered. intros H.
  destruct r.
  - destruct (Qlt_le_dec q p) as [Hlt | Hle].
    + apply Qlt_le_weak in Hlt. apply Qle_bool_iff in Hlt. congruence.
    + exact Hle.
  - destruct (Qlt_le_dec p q) as [Hlt | Hle].
    + apply Qlt_le_weak in Hlt. apply Qle_bool_iff in Hlt. congruence.
    + exact Hle.
Qed.

Lemma sort_insert_perm (r : bool) (p : Q) (l : list Q) :
  Permutation (sort_insert r p l) (p :: l).
Proof.
  induction l as [| q l IH]; simpl; [reflexivity|].
  destruct (before r p q); [reflexivity|].
  rewrite IH. apply perm_swap.
Qed.

Lemma sort_insert_HdRel (r : bool) (p q : Q) (l : list Q) :
  ordered r q p -> HdRel (ordered r) q l ->
  HdRel (ordered r) q (sort_insert r p l).
Proof.
  intros Hqp Hl. destruct l as [| q' l]; simpl.
  - constructor. exact Hqp.
  - destruct (before r p q'); constructor; [exact Hqp|].
    inversion Hl; assumption.
Qed.

Lemma sort_insert_sorted (r : bool) (p : Q) (l : list Q) :
  Sorted (ordered r) l -> Sorted (ordered r) (sort_insert r p l).
Proof.
  induction 1 as [| q l Hs IH Hhd]; simpl.
  - repeat constructor.
  - destruct (before r p q) eqn:E.
    + constructor; [constructor; assumption|].
      constructor. apply before_ordered, E.
    + constructor; [exact IH|].
      apply sort_insert_HdRel; [apply not_before_ordered, E | exact Hhd].
Qed.

Lemma py_sort_perm (r : bool) (l : list Q) : Permutation (py_sort r l) l.
Proof.
  induction l as [| p l IH]; simpl; [reflexivity|].
  rewrite sort_insert_perm. rewrite IH. reflexivity.
Qed.

Lemma py_sort_sorted (r : bool) (l : list Q) : Sorted (ordered r) (py_sort r l).
Proof.
  induction l as [| p l IH]; simpl; [constructor|].
  apply sort_insert_sorted, IH.
Qed.

End Sorting.



(* ================================================================== *)
(** * Further properties of the tiling code *)

Section MoreLabels.
Import TileLocator TileCells.
Local Open Scope Q_scope.

Lemma Qdiv10_mul (u : Q) : u / 10 * 10 == u.
Proof. field. Qed.

Lemma Qdiv10_floor_lo (u : Q) : inject_Z (Qfloor (u / 10) * 10) <= u.
Proof.
  rewrite inject_Z_mult. rewrite <- (Qdiv10_mul u) at 2.
  apply Qmult_le_compat_r; [apply Qfloor_le | discriminate].
Qed.

Lemma Qdiv10_floor_hi (u : Q) : u < inject_Z (Qfloor (u / 10) * 10 + 10).
Proof.
  replace (Qfloor (u / 10) * 10 + 10)%Z with ((Qfloor (u / 10) + 1) * 10)%Z
    by lia.
  rewrite inject_Z_mult. rewrite <- (Qdiv10_mul u) at 1.
  apply Qmult_lt_compat_r; [reflexivity | apply Qlt_floor].
Qed.

Lemma Qdiv10_ceiling_hi (u : Q) : u <= inject_Z (Qceiling (u / 10) * 10).
Proof.
  rewrite inject_Z_mult. rewrite <- (Qdiv10_mul u) at 1.
  apply Qmult_le_compat_r; [apply Qle_ceiling | discriminate].
Qed.

Lemma Qdiv10_ceiling_lo (u : Q) : inject_Z (Qceiling (u / 10) * 10 - 10) < u.
Proof.
  replace (Qceiling (u / 10) * 10 - 10)%Z with ((Qceiling (u / 10) - 1) * 10)%Z
    by lia.
  rewrite inject_Z_mult. rewrite <- (Qdiv10_mul u) at 2.
  apply Qmult_lt_compat_r; [reflexivity | apply Qceiling_lt].
Qed.

Lemma lon_label_by_cell (lon : Q) :
  lon_label lon = lon_label_of_cell (lon_cell lon).
Proof. apply lon_label_cell. Qed.

Lemma lat_label_by_cell (lat : Q) :
  lat_label lat = lat_label_of_cell (lat_cell lat).
Proof. apply lat_label_cell. Qed.

Lemma unwrap_range (lon : Q) :
  -180 <= lon -> lon < 360 -> -180 <= unwrap lon /\ unwrap lon < 180.
Proof.
  intros Hlo Hhi. unfold unwrap.
  destruct (Qlt_le_dec lon 180) as [Hlt | Hge]; [split; assumption|].
  split.
  - apply Qle_trans with (180 - 360); [discriminate|].
    apply Qplus_le_l. exact Hge.
  - apply Qlt_le_trans with (360 - 360); [|discriminate].
    apply Qplus_lt_l. exact Hhi.
Qed.

Lemma lon_cell_range (lon : Q) :
  -180 <= lon -> lon < 360 -> (-18 <= lon_cell lon < 18)%Z.
Proof.
  intros Hlo Hhi. destruct (unwrap_range lon Hlo Hhi) as [Hu0 Hu1].
  unfold lon_cell. split.
  - change (-18)%Z with (Qfloor (inject_Z (-18))).
    apply Qfloor_resp_le. apply Qle_shift_div_l; [reflexivity | exact Hu0].
  - rewrite Zlt_Qlt. eapply Qle_lt_trans; [apply Qfloor_le|].
    apply Qlt_shift_div_r; [reflexivity | exact Hu1].
Qed.

Lemma lat_cell_range (lat : Q) (jlo jhi : Z) :
  inject_Z (10 * jlo) < lat -> lat <= inject_Z (10 * jhi) ->
  (jlo < lat_cell lat <= jhi)%Z.
Proof.
  intros Hlo Hhi. unfold lat_cell. split.
  - rewrite Zlt_Qlt. eapply Qlt_le_trans; [|apply Qle_ceiling].
    apply Qdiv10_cell_lo_strict, Hlo.
  - rewrite <- (Qceiling_Z jhi). apply Qceiling_resp_le.
    apply Qdiv10_cell_hi_le, Hhi.
Qed.

Lemma In_cells (lo hi k : Z) : (lo <= k < hi)%Z -> In k (cells lo hi).
Proof.
  intros Hk. unfold cells. apply in_map_iff.
  exists (Z.to_nat (k - lo)). split; [lia|].
  apply in_seq. lia.
Qed.

End MoreLabels.



(** X3: a longitude given in [[180, 540)] gets the label of the same
    longitude given in [[-180, 180)]: [lon_label(lon + 360) =
    lon_label(lon)] for [-180 <= lon < 180]. *)
Theorem lon_label_wraps (lon : Q) :
  (-180 <= lon)%Q -> (lon < 180)%Q ->
  TileLocator.lon_label (lon + 360) = TileLocator.lon_label lon.
Proof.
  intros Hlo Hhi. rewrite !lon_label_by_cell. f_equal.
  unfold TileLocator.lon_cell, TileLocator.unwrap.
  destruct (Qlt_le_dec (lon + 360) 180) as [Hbad | _].
  { exfalso. apply (Qlt_irrefl 180).
    eapply Qle_lt_trans; [|exact Hbad].
    apply Qle_trans with (-180 + 360)%Q; [discriminate|].
    apply Qplus_le_l. exact Hlo. }
  destruct (Qlt_le_dec lon 180) as [_ | Hbad].
  - apply Qfloor_comp. field.
  - exfalso. apply (Qlt_irrefl lon). eapply Qlt_le_trans; eassumption.
Qed.

(** X3, witness: 235.5 and -124.5 are both in column 130W. *)
Lemma lon_label_wraps_witness :
  TileLocator.lon_label ((-249 # 2) + 360) = TileLocator.lon_label (-249 # 2).
Proof. apply lon_label_wraps; vm_compute; congruence. Defined.

Section TileIds.
Import TileLocator TileCells.

Lemma string_app_length (s t : string) :
  String.length (s ++ t) = (String.length s + String.length t)%nat.
Proof. induction s as [| c s IH]; simpl; [reflexivity | rewrite IH; reflexivity]. Qed.

Lemma string_app_inj (s s' t t' : string) :
  String.length s = String.length s' ->
  (s ++ t)%string = (s' ++ t')%string -> s = s' /\ t = t'.
Proof.
  revert s'. induction s as [| c s IH]; intros [| c' s'] Hlen Heq;
    simpl in *; try discriminate.
  - auto.
  - injection Heq as -> Heq. destruct (IH s') as [-> ->]; [lia | exact Heq|].
    auto.
Qed.

Lemma lon_labels_have_4_chars :
  forallb (fun k => (String.length (lon_label_of_cell k) =? 4)%nat)
          (cells (-18) 18) = true.
Proof. vm_compute. reflexivity. Qed.

Lemma lat_labels_have_4_chars :
  forallb (fun j => (String.length (lat_label_of_cell j) =? 4)%nat)
          (cells (-9) 10) = true.
Proof. vm_compute. reflexivity. Qed.

Lemma lon_label_length (lon : Q) :
  (-180 <= lon)%Q -> (lon < 360)%Q -> String.length (lon_label lon) = 4%nat.
Proof.
  intros Hlo Hhi. rewrite lon_label_by_cell.
  pose proof lon_labels_have_4_chars as H. rewrite forallb_forall in H.
  apply Nat.eqb_eq, H, In_cells, lon_cell_range; assumption.
Qed.

Lemma lat_label_length (lat : Q) :
  (-100 < lat)%Q -> (lat <= 90)%Q -> String.length (lat_label lat) = 4%nat.
Proof.
  intros Hlo Hhi. rewrite lat_label_by_cell.
  pose proof lat_labels_have_4_chars as H. rewrite forallb_forall in H.
  apply Nat.eqb_eq, H, In_cells.
  pose proof (lat_cell_range lat (-10) 9 Hlo Hhi). lia.
Qed.

Lemma NoDup_pairs (xs ys : list string) (n : nat) :
  NoDup xs -> NoDup ys -> (forall x, In x xs -> String.length x = n) ->
  NoDup (flat_map (fun x => map (fun y => (x ++ y)%string) ys) xs).
Proof.
  intros Hxs Hys Hlen. induction Hxs as [| x xs Hx Hxs IH]; simpl.
  - constructor.
  - apply NoDup_app. split; [|split].
    + apply NoDup_fmap_2; [|exact Hys].
      intros y y' Heq. apply (string_app_inj x x y y' eq_refl Heq).
    + intros t Ht Ht'. apply list_elem_of_In in Ht, Ht'.
      apply in_map_iff in Ht as (y & <- & _).
      apply in_flat_map in Ht' as (x' & Hx' & Ht').
      apply in_map_iff in Ht' as (y' & Heq & _).
      destruct (string_app_inj x' x y' y) as [-> _]; [|exact Heq|].
      * rewrite (Hlen x' (or_intror Hx')), (Hlen x (or_introl eq_refl)).
        reflexivity.
      * apply Hx. apply list_elem_of_In, Hx'.
    + apply IH. intros x' Hx'. apply Hlen. right. exact Hx'.
Qed.

Lemma set2_swap (a b : string) : Permutation (set2 a b) (set2 b a).
Proof.
  unfold set2. rewrite (String.eqb_sym b a).
  destruct (String.eqb_spec a b) as [-> | _]; [reflexivity | apply perm_swap].
Qed.

Lemma set2_nonempty (a b : string) : (1 <= length (set2 a b))%nat.
Proof. unfold set2. destruct (String.eqb a b); simpl; lia. Qed.

End TileIds.

(** X4: for geographic input (longitudes in [[-180, 360)], latitudes in
    [[-90, 90]]) every id that [get_tiles] returns has 8 characters, and
    no id is returned twice. *)
Theorem get_tiles_ids_distinct
  (iter : list string -> list string)
  (Hiter : forall l, Permutation (iter l) l)
  (xmin xmax ymin ymax : Q) :
  (-180 <= xmin)%Q -> (xmin < 360)%Q -> (-180 <= xmax)%Q -> (xmax < 360)%Q ->
  (-90 <= ymin)%Q -> (ymin <= 90)%Q -> (-90 <= ymax)%Q -> (ymax <= 90)%Q ->
  NoDup (TileLocator.get_tiles iter xmin xmax ymin ymax) /\
  forall t, In t (TileLocator.get_tiles iter xmin xmax ymin ymax) ->
            String.length t = 8%nat.
Proof.
  intros Hx0 Hx1 Hx0' Hx1' Hy0 Hy1 Hy0' Hy1'.
  assert (forall y : Q, (-90 <= y)%Q -> (-100 < y)%Q) as Hlow.
  { intros y Hy. eapply Qlt_le_trans; [|exact Hy]. reflexivity. }
  assert (forall x, In x (iter (TileLocator.set2 (TileLocator.lon_label xmin)
                                                 (TileLocator.lon_label xmax)))
                    -> String.length x = 4%nat) as Hxlen.
  { intros x Hx. apply (Permutation_in _ (Hiter _)) in Hx.
    apply set2_In in Hx. destruct Hx as [<- | [<- | []]];
      apply lon_label_length; assumption. }
  assert (forall y, In y (iter (TileLocator.set2 (TileLocator.lat_label ymin)
                                                 (TileLocator.lat_label ymax)))
                    -> String.length y = 4%nat) as Hylen.
  { intros y Hy. apply (Permutation_in _ (Hiter _)) in Hy.
    apply set2_In in Hy. destruct Hy as [<- | [<- | []]];
      apply lat_label_length; auto. }
  unfold TileLocator.get_tiles. split.
  - apply (NoDup_pairs _ _ 4%nat).
    + rewrite (Hiter _). apply set2_NoDup.
    + rewrite (Hiter _). apply set2_NoDup.
    + exact Hxlen.
  - intros t Ht. apply flat_map_pairs_In in Ht as (x & y & Hx & Hy & ->).
    rewrite string_app_length, (Hxlen x Hx), (Hylen y Hy). reflexivity.
Qed.

(** X4, witness: the box of the description. *)
Lemma get_tiles_ids_distinct_witness :
  NoDup (TileLocator.get_tiles (fun l => l) (-125) (-118) 45 52).
Proof.
  apply (get_tiles_ids_distinct (fun l => l)
           (fun l => Permutation_refl l) (-125) (-118) 45 52);
    vm_compute; congruence.
Defined.

(** X5: [get_tiles] returns between one and four ids, and the same ids
    (up to order) when the two x bounds, or the two y bounds, are given in
    the other order. *)
Theorem get_tiles_bounds_order
  (iter : list string -> list string)
  (Hiter : forall l, Permutation (iter l) l)
  (xmin xmax ymin ymax : Q) :
  (1 <= length (TileLocator.get_tiles iter xmin xmax ymin ymax) <= 4)%nat /\
  Permutation (TileLocator.get_tiles iter xmin xmax ymin ymax)
              (TileLocator.get_tiles iter xmax xmin ymax ymin).
Proof.
  unfold TileLocator.get_tiles. split.
  - rewrite flat_map_pairs_length.
    rewrite !(Permutation_length (Hiter _)).
    pose proof (set2_length (TileLocator.lon_label xmin)
                            (TileLocator.lon_label xmax)).
    pose proof (set2_nonempty (TileLocator.lon_label xmin)
                              (TileLocator.lon_label xmax)).
    pose proof (set2_length (TileLocator.lat_label ymin)
                            (TileLocator.lat_label ymax)).
    pose proof (set2_nonempty (TileLocator.lat_label ymin)
                              (TileLocator.lat_label ymax)).
    nia.
  - apply flat_map_pairs_perm.
    + rewrite !Hiter. apply set2_swap.
    + rewrite !Hiter. apply set2_swap.
Qed.

(** X5, witness: the order in which a set is built is the order in which
    it is visited. *)
Lemma get_tiles_bounds_order_witness :
  Permutation (TileLocator.get_tiles (fun l => l) (-125) (-118) 45 52)
              (TileLocator.get_tiles (fun l => l) (-118) (-125) 52 45).
Proof.
  apply (get_tiles_bounds_order (fun l => l) (fun l => Permutation_refl l)).
Defined.

Section GlobalLocations.
Import TileLocator TileCells MWPDataManager.

Lemma ids_of_cells_listed :
  forallb (fun t => String.eqb t "000E000S" || listed get_global_locations t)
          (ids_of_cells (-7) 8) = true.
Proof. vm_compute. reflexivity. Qed.

Lemma listed_In (names : list string) (s : string) :
  listed names s = true <-> In s names.
Proof.
  unfold listed. rewrite existsb_exists. split.
  - intros (x & Hx & Heq). apply String.eqb_eq in Heq. subst. exact Hx.
  - intros H. exists s. split; [exact H | apply String.eqb_refl].
Qed.

End GlobalLocations.



(* ================================================================== *)
(** * Further properties of the grid code *)

(** X7, witness of [coord2pixel_checks]: the coordinate (205, 425) of the
    30 m grid has fractional position (3.5, 2.5) and index (3, 2). *)
Lemma coord2pixel_checks_witness :
  GDALGrid.coord2pixel grid_30m 205 425 = Ok (3, 2) /\
  GDALGrid.in_bounds grid_30m (3, 2).
Proof.
  pose proof (coord2pixel_checks grid_30m 205 425 _ _
                ltac:(vm_compute; reflexivity)) as [_ H].
  destruct H as [H1 H2]; try (vm_compute; split; congruence).
  split; [exact H1 | exact H2].
Defined.

Section Extent.
Import GDALGrid GridExtent.
Local Open Scope Q_scope.

Lemma inject_Z_index (k n : Z) :
  (0 <= k < n)%Z -> 0 <= inject_Z k /\ inject_Z k + 1 <= inject_Z n.
Proof.
  intros [H0 H1]. split.
  - change 0 with (inject_Z 0). rewrite <- Zle_Qle. exact H0.
  - change 1 with (inject_Z 1). rewrite <- inject_Z_plus, <- Zle_Qle. lia.
Qed.

Lemma arange_half_length (n : Z) : length (arange_half n) = Z.to_nat n.
Proof. unfold arange_half. rewrite List.length_map, length_seq. reflexivity. Qed.

Lemma arange_half_lookup (n k : Z) :
  (0 <= k < n)%Z ->
  arange_half n !! Z.to_nat k = Some (inject_Z k + (1 # 2)).
Proof.
  intros Hk. unfold arange_half.
  change (map ?f ?l) with (f <$> l).
  rewrite list_lookup_fmap, lookup_seq_lt by lia.
  simpl. rewrite Z2Nat.id by lia. reflexivity.
Qed.

End Extent.

(* ------------------------------------------------------------------ *)
(** ** Rounding to the nearest double *)

Section Doubles.
Import Binary64.
Local Open Scope Q_scope.

Lemma pow2_pos (k : Z) : 0 < pow2 k.
Proof. apply Qpower_0_lt. reflexivity. Qed.

Lemma pow2_plus (j k : Z) : pow2 (j + k) == pow2 j * pow2 k.
Proof. apply Qpower_plus. discriminate. Qed.

Lemma pow2_le (j k : Z) : (j <= k)%Z -> pow2 j <= pow2 k.
Proof. intros H. apply Qpower_le_compat_l; [exact H | discriminate]. Qed.

Lemma pow2_nonneg_int (k : Z) : (0 <= k)%Z -> pow2 k == inject_Z (2 ^ k).
Proof. intros H. unfold pow2. rewrite Zpower_Qpower by exact H. reflexivity. Qed.

(** nearest_even *)
Lemma nearest_even_bounds (q : Q) :
  (Qfloor q <= nearest_even q <= Qfloor q + 1)%Z.
Proof.
  unfold nearest_even.
  destruct (Qcompare (q - inject_Z (Qfloor q)) (1 # 2)); [destruct (Z.even _)| |]; lia.
Qed.

Lemma nearest_even_int (n : Z) : nearest_even (inject_Z n) = n.
Proof.
  unfold nearest_even. rewrite Qfloor_Z.
  destruct (Qcompare_spec (inject_Z n - inject_Z n) (1 # 2)) as [H|H|H];
    try reflexivity; exfalso; lra.
Qed.

Lemma nearest_even_monotone (p q : Q) :
  p <= q -> (nearest_even p <= nearest_even q)%Z.
Proof.
  intros Hpq.
  pose proof (Qfloor_resp_le _ _ Hpq) as Hfl.
  destruct (Z.eq_dec (Qfloor p) (Qfloor q)) as [E | Hne].
  - unfold nearest_even. rewrite E.
    destruct (Qcompare_spec (p - inject_Z (Qfloor q)) (1 # 2)) as [H1|H1|H1];
    destruct (Qcompare_spec (q - inject_Z (Qfloor q)) (1 # 2)) as [H2|H2|H2];
      try destruct (Z.even (Qfloor q)); try lia; exfalso; lra.
  - pose proof (nearest_even_bounds p). pose proof (nearest_even_bounds q). lia.
Qed.

Lemma pow2_diff (a b : Z) :
  (0 <= a)%Z -> (0 <= b)%Z -> pow2 (a - b) == 2 ^ a # Z.to_pos (2 ^ b).
Proof.
  intros Ha Hb. unfold pow2. rewrite Qpower_minus by discriminate.
  fold (pow2 a) (pow2 b). rewrite !pow2_nonneg_int by assumption.
  rewrite Qmake_Qdiv. rewrite Z2Pos.id by (apply Z.pow_pos_nonneg; lia).
  reflexivity.
Qed.

Lemma exponent_spec (q : Q) :
  ~ q == 0 -> pow2 (exponent q) <= Qabs q /\ Qabs q < pow2 (exponent q + 1).
Proof.
  intros Hq. unfold exponent.
  set (n := Z.abs (Qnum q)). set (d := Z.pos (Qden q)).
  assert (0 < n)%Z as Hn.
  { subst n. destruct q as [qn qd]. unfold Qeq in Hq. simpl in *. lia. }
  assert (0 < d)%Z as Hd by (subst d; lia).
  pose proof (Z.log2_spec n Hn) as [Hn1 Hn2].
  pose proof (Z.log2_spec d Hd) as [Hd1 Hd2].
  unfold Z.succ in Hn2, Hd2.
  pose proof (Z.log2_nonneg n) as Hln. pose proof (Z.log2_nonneg d) as Hld.
  set (ln := Z.log2 n) in *. set (ld := Z.log2 d) in *.
  assert (0 < 2 ^ ln)%Z as Pn by (apply Z.pow_pos_nonneg; lia).
  assert (0 < 2 ^ ld)%Z as Pd by (apply Z.pow_pos_nonneg; lia).
  assert (Qabs q = n # Qden q) as Habs by (destruct q; reflexivity).
  assert (Qabs q < pow2 (ln - ld + 1)) as Hup.
  { replace (ln - ld + 1)%Z with ((ln + 1) - ld)%Z by lia.
    rewrite pow2_diff by lia. rewrite Habs. unfold Qlt. simpl.
    rewrite Z2Pos.id by exact Pd. fold d.
    set (A := (2 ^ (ln + 1))%Z) in *. set (B := (2 ^ ld)%Z) in *. nia. }
  assert (pow2 (ln - ld - 1) < Qabs q) as Hlo.
  { replace (ln - ld - 1)%Z with (ln - (ld + 1))%Z by lia.
    rewrite pow2_diff by lia. rewrite Habs. unfold Qlt. simpl.
    rewrite Z2Pos.id by (apply Z.pow_pos_nonneg; lia). fold d.
    set (A := (2 ^ (ld + 1))%Z) in *. set (B := (2 ^ ln)%Z) in *. nia. }
  destruct (Qle_bool (pow2 (ln - ld)) (Qabs q)) eqn:E.
  - apply Qle_bool_iff in E. split; assumption.
  - split; [apply Qlt_le_weak, Hlo|].
    replace (ln - ld - 1 + 1)%Z with (ln - ld)%Z by lia.
    apply Qnot_le_lt. intros H. apply Qle_bool_iff in H. congruence.
Qed.

Lemma exponent_monotone (p q : Q) :
  0 < p -> p <= q -> (exponent p <= exponent q)%Z.
Proof.
  intros Hp Hpq.
  destruct (exponent_spec p) as [Hp1 _]; [lra|].
  destruct (exponent_spec q) as [_ Hq2]; [lra|].
  rewrite Qabs_pos in Hp1 by lra. rewrite Qabs_pos in Hq2 by lra.
  destruct (Z_le_gt_dec (exponent p) (exponent q)) as [|Hgt]; [assumption|].
  exfalso. pose proof (pow2_le (exponent q + 1) (exponent p) ltac:(lia)). lra.
Qed.

Lemma exponent_opp (q : Q) : exponent (- q) = exponent q.
Proof.
  destruct q as [n d]. unfold exponent, Qabs, Qopp. simpl.
  rewrite Z.abs_opp. reflexivity.
Qed.

Lemma nearest_even_comp (p q : Q) : p == q -> nearest_even p = nearest_even q.
Proof.
  intros E. apply Z.le_antisymm; apply nearest_even_monotone; rewrite E;
    apply Qle_refl.
Qed.

Lemma nearest_even_opp (q : Q) : nearest_even (- q) = (- nearest_even q)%Z.
Proof.
  pose proof (Qfloor_le q) as H1. pose proof (Qlt_floor q) as H2.
  rewrite inject_Z_plus in H2. change (inject_Z 1) with 1 in H2.
  destruct (Qeq_dec q (inject_Z (Qfloor q))) as [E | Hne].
  - rewrite (nearest_even_comp q _ E).
    rewrite (nearest_even_comp (- q) (inject_Z (- Qfloor q))).
    + rewrite !nearest_even_int. reflexivity.
    + rewrite inject_Z_opp, <- E. reflexivity.
  - assert (inject_Z (Qfloor q) < q) as H1' by (apply Qle_lt_or_eq in H1 as [|E']; [assumption|]; exfalso; apply Hne; symmetry; exact E').
    assert (inject_Z (- Qfloor q - 1) == - inject_Z (Qfloor q) - 1) as Hinj.
    { unfold Z.sub. rewrite inject_Z_plus, !inject_Z_opp.
      change (inject_Z 1) with 1. ring. }
    assert (Qfloor (- q) = (- Qfloor q - 1)%Z) as Hfl.
    { apply Qfloor_unique.
      - lra.
      - replace (- Qfloor q - 1 + 1)%Z with (- Qfloor q)%Z by lia.
        rewrite inject_Z_opp. lra. }
    unfold nearest_even. rewrite Hfl.
    set (fl := Qfloor q) in *.
    assert (Z.even (- fl - 1) = negb (Z.even fl)) as Hev.
    { replace (- fl - 1)%Z with (- Z.succ fl)%Z by lia.
      rewrite Z.even_opp, Z.even_succ, <- Z.negb_even. reflexivity. }
    rewrite Hev.
    destruct (Qcompare_spec (q - inject_Z fl) (1 # 2)) as [A|A|A];
    destruct (Qcompare_spec (- q - inject_Z (- fl - 1)) (1 # 2)) as [B|B|B];
      try (exfalso; lra); try destruct (Z.even fl); simpl; lia.
Qed.

(** The rounded value, for [q <> 0]. *)
Lemma round_nonzero (q : Q) :
  ~ q == 0 ->
  round q = inject_Z (nearest_even (q / pow2 (Z.max (exponent q - 52) (-1074))))
            * pow2 (Z.max (exponent q - 52) (-1074)).
Proof.
  intros Hq. unfold round.
  destruct (Qeq_bool q 0) eqn:E; [|reflexivity].
  apply Qeq_bool_iff in E. contradiction.
Qed.

Lemma round_zero (q : Q) : q == 0 -> round q = 0.
Proof.
  intros Hq. unfold round. apply Qeq_bool_iff in Hq. rewrite Hq. reflexivity.
Qed.

Lemma pow2_split (k u : Z) :
  (u <= k)%Z -> pow2 k == inject_Z (2 ^ (k - u)) * pow2 u.
Proof.
  intros H. rewrite <- pow2_nonneg_int by lia. rewrite <- pow2_plus.
  replace (k - u + u)%Z with k by lia. reflexivity.
Qed.

Lemma scaled_le_pow2 (x : Q) (k u : Z) :
  (u <= k)%Z -> x <= pow2 k ->
  inject_Z (nearest_even (x / pow2 u)) * pow2 u <= pow2 k.
Proof.
  intros Hu Hx. pose proof (pow2_pos u) as Hp.
  rewrite (pow2_split k u Hu) at 1.
  apply Qmult_le_compat_r; [|lra].
  rewrite <- Zle_Qle.
  rewrite <- (nearest_even_int (2 ^ (k - u))).
  apply nearest_even_monotone.
  apply Qle_shift_div_r; [exact Hp|].
  rewrite <- (pow2_split k u Hu). exact Hx.
Qed.

Lemma scaled_ge_pow2 (x : Q) (k u : Z) :
  (u <= k)%Z -> pow2 k <= x ->
  pow2 k <= inject_Z (nearest_even (x / pow2 u)) * pow2 u.
Proof.
  intros Hu Hx. pose proof (pow2_pos u) as Hp.
  rewrite (pow2_split k u Hu) at 1.
  apply Qmult_le_compat_r; [|lra].
  rewrite <- Zle_Qle.
  rewrite <- (nearest_even_int (2 ^ (k - u))) at 1.
  apply nearest_even_monotone.
  apply Qle_shift_div_l; [exact Hp|].
  rewrite <- (pow2_split k u Hu). exact Hx.
Qed.

Lemma round_pos_monotone (p q : Q) : 0 < p -> p <= q -> round p <= round q.
Proof.
  intros Hp Hpq.
  rewrite (round_nonzero p) by lra. rewrite (round_nonzero q) by lra.
  pose proof (exponent_monotone p q Hp Hpq) as He.
  destruct (exponent_spec p) as [Hp1 Hp2]; [lra|].
  destruct (exponent_spec q) as [Hq1 Hq2]; [lra|].
  rewrite Qabs_pos in Hp1, Hp2 by lra. rewrite Qabs_pos in Hq1, Hq2 by lra.
  set (ep := exponent p) in *. set (eq := exponent q) in *.
  set (up := Z.max (ep - 52) (-1074)). set (uq := Z.max (eq - 52) (-1074)).
  destruct (Z.eq_dec up uq) as [E | Hne].
  - rewrite E. pose proof (pow2_pos uq) as Hpos.
    apply Qmult_le_compat_r; [|lra].
    rewrite <- Zle_Qle. apply nearest_even_monotone.
    apply Qmult_le_compat_r; [exact Hpq|].
    apply Qlt_le_weak, Qinv_lt_0_compat, Hpos.
  - assert (ep + 1 <= eq)%Z as Hlt by lia.
    apply Qle_trans with (pow2 eq).
    + apply scaled_le_pow2; [lia|].
      pose proof (pow2_le (ep + 1) eq Hlt). lra.
    + apply scaled_ge_pow2; [lia | exact Hq1].
Qed.

Lemma round_nonneg (q : Q) : 0 <= q -> 0 <= round q.
Proof.
  intros Hq. destruct (Qeq_dec q 0) as [E | Hne].
  - rewrite (round_zero q E). apply Qle_refl.
  - rewrite (round_nonzero q Hne).
    set (u := Z.max (exponent q - 52) (-1074)).
    pose proof (pow2_pos u) as Hpos.
    apply Qmult_le_0_compat; [|lra].
    change 0 with (inject_Z 0). rewrite <- Zle_Qle.
    rewrite <- (nearest_even_int 0). apply nearest_even_monotone.
    apply Qle_shift_div_l; [exact Hpos|]. change (inject_Z 0) with 0. lra.
Qed.

Lemma round_opp (q : Q) : round (- q) == - round q.
Proof.
  destruct (Qeq_dec q 0) as [E | Hne].
  - rewrite (round_zero q E), (round_zero (- q)) by (rewrite E; reflexivity).
    reflexivity.
  - rewrite (round_nonzero q Hne), (round_nonzero (- q)) by lra.
    rewrite exponent_opp.
    set (u := Z.max (exponent q - 52) (-1074)).
    rewrite (nearest_even_comp (- q / pow2 u) (- (q / pow2 u))).
    + rewrite nearest_even_opp, inject_Z_opp. ring.
    + unfold Qdiv. ring.
Qed.

Lemma round_monotone (p q : Q) : p <= q -> round p <= round q.
Proof.
  intros Hpq.
  destruct (Qlt_le_dec 0 p) as [Hp | Hp].
  { apply round_pos_monotone; assumption. }
  destruct (Qlt_le_dec q 0) as [Hq | Hq].
  { pose proof (round_pos_monotone (- q) (- p) ltac:(lra) ltac:(lra)) as H.
    rewrite !round_opp in H. lra. }
  pose proof (round_nonneg q Hq) as H1.
  pose proof (round_nonneg (- p) ltac:(lra)) as H2.
  rewrite round_opp in H2. lra.
Qed.

(** Integers below 2^53 in absolute value are doubles. *)
Lemma round_int_pos (z : Z) :
  (0 < z < 2 ^ 53)%Z -> round (inject_Z z) == inject_Z z.
Proof.
  intros [Hz0 Hz1].
  assert (0 < inject_Z z) as Hpos
    by (change 0 with (inject_Z 0); rewrite <- Zlt_Qlt; exact Hz0).
  assert (1 <= inject_Z z) as Hone
    by (change 1 with (inject_Z 1); rewrite <- Zle_Qle; lia).
  assert (inject_Z z < pow2 53) as Hlt.
  { rewrite pow2_nonneg_int by lia. rewrite <- Zlt_Qlt. exact Hz1. }
  rewrite round_nonzero by lra.
  destruct (exponent_spec (inject_Z z)) as [He1 He2]; [lra|].
  rewrite Qabs_pos in He1, He2 by lra.
  set (e := exponent (inject_Z z)) in *.
  assert (e <= 52)%Z as Hhi.
  { destruct (Z_le_gt_dec e 52); [assumption|exfalso].
    pose proof (pow2_le 53 e ltac:(lia)). lra. }
  assert (0 <= e)%Z as Hlo.
  { destruct (Z_le_gt_dec 0 e); [assumption|exfalso].
    pose proof (pow2_le (e + 1) 0 ltac:(lia)) as H.
    change (pow2 0) with 1 in H. lra. }
  replace (Z.max (e - 52) (-1074)) with (e - 52)%Z by lia.
  set (u := (e - 52)%Z).
  assert (inject_Z z / pow2 u == inject_Z (z * 2 ^ (- u))) as Hsc.
  { rewrite inject_Z_mult, <- pow2_nonneg_int by lia.
    pose proof (pow2_pos u). 
    assert (pow2 (- u) * pow2 u == 1) as H1.
    { rewrite <- pow2_plus. replace (- u + u)%Z with 0%Z by lia. reflexivity. }
    apply Qmult_inj_r with (pow2 u); [lra|].
    unfold Qdiv. rewrite <- !Qmult_assoc, H1.
    rewrite (Qmult_comm (/ pow2 u)), Qmult_inv_r by lra. reflexivity. }
  rewrite (nearest_even_comp _ _ Hsc), nearest_even_int.
  rewrite <- Hsc. unfold Qdiv. rewrite <- Qmult_assoc.
  rewrite (Qmult_comm (/ pow2 u)), Qmult_inv_r by (pose proof (pow2_pos u); lra).
  ring.
Qed.

Lemma round_int (z : Z) :
  (Z.abs z < 2 ^ 53)%Z -> round (inject_Z z) == inject_Z z.
Proof.
  intros Hz.
  destruct (Z.lt_trichotomy z 0) as [Hneg | [-> | Hpos]].
  - replace z with (- - z)%Z by lia. rewrite inject_Z_opp, round_opp.
    rewrite round_int_pos by lia. reflexivity.
  - reflexivity.
  - apply round_int_pos. lia.
Qed.

End Doubles.

Section RoundedBounds.
Import GDALGrid.
Local Open Scope Q_scope.
Variable rnd : Q -> Q.
Hypothesis rnd_monotone : forall p q, p <= q -> rnd p <= rnd q.

Lemma rnd_comp (p q : Q) : p == q -> rnd p == rnd q.
Proof.
  intros E. apply Qle_antisym; apply rnd_monotone; rewrite E; apply Qle_refl.
Qed.

(** One component of [m * (vx, vy)] grows with its two products. *)
Lemma rounded_component_monotone (p p' q q' o : Q) :
  p <= p' -> q <= q' ->
  rnd (rnd (rnd p + rnd q) + o) <= rnd (rnd (rnd p' + rnd q') + o).
Proof.
  intros Hp Hq. apply rnd_monotone, Qplus_le_compat; [|apply Qle_refl].
  apply rnd_monotone, Qplus_le_compat; apply rnd_monotone; assumption.
Qed.

Lemma Qmult_le_nonpos_r (x y z : Q) : x <= y -> z <= 0 -> y * z <= x * z.
Proof.
  intros Hxy Hz.
  assert (x * - z <= y * - z) as H by (apply Qmult_le_compat_r; lra).
  lra.
Qed.

(** The rounded centre offset of an index lies between the rounded corner
    offsets [0] and [n]. *)
Lemma rounded_centre_offset (k n : Z) :
  (0 <= k < n)%Z ->
  rnd (inject_Z k) == inject_Z k ->
  Rounded.of_int rnd 0 <= rnd (Rounded.of_int rnd k + (1 # 2)) /\
  rnd (Rounded.of_int rnd k + (1 # 2)) <= Rounded.of_int rnd n.
Proof.
  intros Hk Hfix. unfold Rounded.of_int.
  destruct (inject_Z_index _ _ Hk) as [H0 H1].
  split; apply rnd_monotone; rewrite Hfix.
  - change (inject_Z 0) with 0. lra.
  - lra.
Qed.

End RoundedBounds.

(** X8: on a grid without rotation terms whose pixel width is not negative
    and whose pixel height is not positive (a north-up grid), when the
    rounding of the float operations is monotone and leaves the column and
    row indices as they are, the centre that [pixel2coord] gives for an
    in-bounds pixel lies in the box that [bounds()] returns, edges
    included. *)
Theorem pixel_centre_within_bounds (rnd : Q -> Q) (g : GDALGrid.Dataset)
        (col row : Z) (x y : Q) :
  (forall p q, p <= q -> rnd p <= rnd q)%Q ->
  (rnd (inject_Z col) == inject_Z col)%Q ->
  (rnd (inject_Z row) == inject_Z row)%Q ->
  (Affine.b (GDALGrid.affine g) == 0)%Q ->
  (Affine.d (GDALGrid.affine g) == 0)%Q ->
  (0 <= Affine.a (GDALGrid.affine g))%Q ->
  (Affine.e (GDALGrid.affine g) <= 0)%Q ->
  0 <= col < GDALGrid.x_size g ->
  0 <= row < GDALGrid.y_size g ->
  Rounded.pixel2coord rnd g col row = Ok (x, y) ->
  let '(x_min, x_max, y_min, y_max) := Rounded.bounds rnd g in
  (x_min <= x /\ x <= x_max)%Q /\ (y_min <= y /\ y <= y_max)%Q.
Proof.
  intros Hmono Hfc Hfr Hb Hd Ha He Hc Hr Hpix.
  unfold Rounded.pixel2coord in Hpix.
  destruct (Z.leb_spec (GDALGrid.x_size g) col); [lia|].
  destruct (Z.leb_spec (GDALGrid.y_size g) row); [lia|].
  unfold GDALGrid.x_size, GDALGrid.y_size in *.
  destruct (rounded_centre_offset rnd Hmono col _ Hc Hfc) as [Hv0 Hv1].
  destruct (rounded_centre_offset rnd Hmono row _ Hr Hfr) as [Hw0 Hw1].
  set (m := GDALGrid.affine g) in *.
  set (v := rnd (Rounded.of_int rnd col + (1 # 2))%Q) in *.
  set (w := rnd (Rounded.of_int rnd row + (1 # 2))%Q) in *.
  unfold Rounded.bounds, Rounded.apply in *. fold m.
  injection Hpix as <- <-. cbv beta iota zeta.
  assert (forall s t : Q, s * Affine.b m <= t * Affine.b m)%Q as Hzb
    by (intros s t; rewrite Hb; lra).
  assert (forall s t : Q, s * Affine.d m <= t * Affine.d m)%Q as Hzd
    by (intros s t; rewrite Hd; lra).
  repeat split; apply (rounded_component_monotone rnd Hmono);
    try apply Hzb; try apply Hzd;
    try (apply Qmult_le_compat_r; assumption);
    apply Qmult_le_nonpos_r; assumption.
Qed.

(** X8, witness: pixel (0, 0) of the north-up grid with origin 1e16 and
    unit pixels, every operation rounded to the nearest double. *)
Lemma pixel_centre_within_bounds_witness :
  exists x y : Q,
    Rounded.pixel2coord Binary64.round grid_far_north_up 0 0 = Ok (x, y) /\
    let '(x_min, x_max, y_min, y_max) :=
      Rounded.bounds Binary64.round grid_far_north_up in
    (x_min <= x /\ x <= x_max)%Q /\ (y_min <= y /\ y <= y_max)%Q.
Proof.
  eexists _, _. split; [vm_compute; reflexivity|].
  apply (pixel_centre_within_bounds Binary64.round grid_far_north_up 0 0).
  - exact round_monotone.
  - apply round_int. reflexivity.
  - apply round_int. reflexivity.
  - reflexivity.
  - reflexivity.
  - discriminate.
  - discriminate.
  - vm_compute. split; congruence.
  - vm_compute. split; congruence.
  - vm_compute. reflexivity.
Defined.

(** On that grid the centre of pixel (0, 0) is computed as x = 1e16, the
    left edge of the box: the edges cannot be excluded. *)
Lemma far_grid_centre_on_edge :
  exists x y : Q,
    Rounded.pixel2coord Binary64.round grid_far_north_up 0 0 = Ok (x, y) /\
    let '(x_min, _, _, _) := Rounded.bounds Binary64.round grid_far_north_up in
    (x == x_min)%Q /\ (x == inject_Z (10 ^ 16))%Q.
Proof.
  eexists _, _. split; [vm_compute; reflexivity|].
  vm_compute. split; reflexivity.
Qed.

(** X9: [x_coords] and [y_coords] have one entry per column and per row,
    and on a grid without rotation terms the centre that [pixel2coord]
    gives for an in-bounds pixel [(col,row)] is
    [(x_coords[col], y_coords[row])]. *)
Theorem coords_agree_with_pixel2coord (g : GDALGrid.Dataset) (col row : Z)
        (x y : Q) :
  (Affine.b (GDALGrid.affine g) == 0)%Q ->
  (Affine.d (GDALGrid.affine g) == 0)%Q ->
  0 <= col < GDALGrid.x_size g ->
  0 <= row < GDALGrid.y_size g ->
  GDALGrid.pixel2coord g col row = Ok (x, y) ->
  length (GridExtent.x_coords g) = Z.to_nat (GDALGrid.x_size g) /\
  length (GridExtent.y_coords g) = Z.to_nat (GDALGrid.y_size g) /\
  exists xc yc : Q,
    GridExtent.x_coords g !! Z.to_nat col = Some xc /\
    GridExtent.y_coords g !! Z.to_nat row = Some yc /\
    (x == xc)%Q /\ (y == yc)%Q.
Proof.
  intros Hb Hd Hc Hr Hpix.
  unfold GDALGrid.pixel2coord in Hpix.
  destruct (Z.leb_spec (GDALGrid.x_size g) col); [lia|].
  destruct (Z.leb_spec (GDALGrid.y_size g) row); [lia|].
  unfold GridExtent.x_coords, GridExtent.y_coords.
  rewrite !List.length_map, !arange_half_length.
  split; [reflexivity|]. split; [reflexivity|].
  change (map ?f ?l) with (f <$> l).
  rewrite !list_lookup_fmap.
  rewrite (arange_half_lookup _ _ Hc), (arange_half_lookup _ _ Hr).
  simpl. eexists _, _. split; [reflexivity|]. split; [reflexivity|].
  unfold Affine.apply in *. injection Hpix as <- <-. simpl.
  rewrite Hb, Hd. split; ring.
Qed.

(** X9, witness: pixel (3, 2) of the 30 m grid. *)
Lemma coords_agree_with_pixel2coord_witness :
  length (GridExtent.x_coords grid_30m) = 4%nat /\
  length (GridExtent.y_coords grid_30m) = 3%nat.
Proof.
  assert (0 <= 3 < GDALGrid.x_size grid_30m) as Hc
    by (vm_compute; split; congruence).
  assert (0 <= 2 < GDALGrid.y_size grid_30m) as Hr
    by (vm_compute; split; congruence).
  destruct (coords_agree_with_pixel2coord grid_30m 3 2 (820 # 4) (1700 # 4)
              eq_refl eq_refl Hc Hr eq_refl) as (Hx & Hy & _).
  split; [exact Hx | exact Hy].
Defined.

(** X10, witness of [resample_grid_nodata]: the band that declares 255. *)
Lemma resample_grid_nodata_witness :
  exists dst,
    Resample.resample_grid src_nodata_255 match_2x2 None = Ok dst /\
    Resample.dst_nodata dst 1 = Some 255%Q.
Proof.
  eexists. split; [vm_compute; reflexivity|].
  refine (proj2 (resample_grid_nodata src_nodata_255 match_2x2 _ None 1
                   ltac:(vm_compute; reflexivity) _)).
  vm_compute. split; apply le_n.
Defined.

Section Footprint.
Import GDALGrid Resample.

Lemma nodata_loop_frame (src dst : Dataset) (l : list nat) :
  let d := foldl (nodata_step src) dst l in
  GetGeoTransform d = GetGeoTransform dst /\
  RasterXSize d = RasterXSize dst /\
  RasterYSize d = RasterYSize dst /\
  GetProjection d = GetProjection dst /\
  map DataType (Bands d) = map DataType (Bands dst).
Proof.
  revert dst. induction l as [| i l IH]; intros dst; simpl; [auto|].
  destruct (IH (nodata_step src dst i)) as (H1 & H2 & H3 & H4 & H5).
  rewrite H1, H2, H3, H4, H5. repeat split.
  rewrite nodata_step_bands.
  change (map ?f ?l) with (f <$> l).
  apply list_eq. intros k. rewrite !list_lookup_fmap.
  destruct (decide (k = (i - 1)%nat)) as [-> | Hne].
  - rewrite list_lookup_alter_eq. destruct (Bands dst !! (i - 1)%nat); reflexivity.
  - rewrite list_lookup_alter_ne by congruence. reflexivity.
Qed.

(** The dataset that [resample_grid] has built when it calls the warp. *)
Lemma resample_grid_built (src match_ds : Dataset)
      (output_datatype : option nat) (dst : Dataset) :
  resample_grid src match_ds output_datatype = Ok dst ->
  RasterXSize dst = RasterXSize match_ds /\
  RasterYSize dst = RasterYSize match_ds /\
  GetGeoTransform dst = GetGeoTransform match_ds /\
  GetProjection dst = GetProjection match_ds /\
  RasterCount dst = RasterCount src /\
  forall bd, In bd (Bands dst) ->
    Some (DataType bd)
    = match output_datatype with
      | Some dt => Some dt
      | None => DataType <$> head (Bands src)
      end.
Proof.
  intros Hres.
  assert (exists dt,
    Some dt = match output_datatype with
              | Some dt => Some dt
              | None => DataType <$> head (Bands src)
              end /\
    dst = foldl (nodata_step src)
            (SetProjection (GetProjection match_ds)
               (SetGeoTransform (GetGeoTransform match_ds)
                  (Create (RasterXSize match_ds) (RasterYSize match_ds)
                     (RasterCount src) dt)))
            (seq 1 (RasterCount src))) as (dt & Hdt & ->).
  { unfold resample_grid in Hres.
    destruct output_datatype as [dt|], (Bands src) as [| b0 bs] eqn:Eb;
      try discriminate; injection Hres as <-; eexists; (split; [reflexivity|]);
      unfold RasterCount at 2; simpl; rewrite length_replicate;
      unfold RasterCount; rewrite Eb; reflexivity. }
  match goal with |- context [foldl _ ?d0 _] => set (dst0 := d0) end.
  destruct (nodata_loop_frame src dst0 (seq 1 (RasterCount src)))
    as (H1 & H2 & H3 & H4 & H5).
  rewrite H1, H2, H3, H4. repeat split.
  + unfold RasterCount at 1.
    rewrite <- (List.length_map DataType), H5, List.length_map.
    simpl. apply length_replicate.
  + intros bd Hbd. rewrite <- Hdt. f_equal.
    assert (In (DataType bd) (map DataType (Bands dst0))) as Hin
      by (rewrite <- H5; apply in_map, Hbd).
    simpl in Hin. apply in_map_iff in Hin as (b' & <- & Hb').
    apply list_elem_of_In, elem_of_replicate in Hb' as [-> _]. reflexivity.
Qed.

End Footprint.

(** X11: a call of [resample_grid] raises [RuntimeError] when no data type
    is requested and the source has no band, and raises what
    [gdal.ReprojectImage] raises when that raises; it returns [None] when
    the grid goes to a file; and a dataset that it returns has the
    reference grid's size, geotransform and projection, as many bands as
    the source, and every band has the requested data type, or the type of
    the first source band when none is requested. *)
Theorem resample_grid_footprint
        (ReprojectImage : GDALGrid.Dataset -> GDALGrid.Dataset -> result unit)
        (src match_ds : GDALGrid.Dataset) (to_file : option string)
        (output_datatype : option nat) :
  (output_datatype = None -> GDALGrid.Bands src = [] ->
   Resample.resample_grid_call ReprojectImage src match_ds to_file
     output_datatype = Raise RuntimeError) /\
  (forall dst err,
     Resample.resample_grid src match_ds output_datatype = Ok dst ->
     ReprojectImage src dst = Raise err ->
     Resample.resample_grid_call ReprojectImage src match_ds to_file
       output_datatype = Raise err) /\
  (Resample.writes_file to_file = true ->
   forall res,
     Resample.resample_grid_call ReprojectImage src match_ds to_file
       output_datatype = Ok res -> res = None) /\
  forall dst,
    Resample.resample_grid_call ReprojectImage src match_ds to_file
      output_datatype = Ok (Some dst) ->
    Resample.writes_file to_file = false /\
    GDALGrid.RasterXSize dst = GDALGrid.RasterXSize match_ds /\
    GDALGrid.RasterYSize dst = GDALGrid.RasterYSize match_ds /\
    GDALGrid.GetGeoTransform dst = GDALGrid.GetGeoTransform match_ds /\
    GDALGrid.GetProjection dst = GDALGrid.GetProjection match_ds /\
    GDALGrid.RasterCount dst = GDALGrid.RasterCount src /\
    forall bd, In bd (GDALGrid.Bands dst) ->
      Some (GDALGrid.DataType bd)
      = match output_datatype with
        | Some dt => Some dt
        | None => GDALGrid.DataType <$> head (GDALGrid.Bands src)
        end.
Proof.
  unfold Resample.resample_grid_call.
  split; [|split; [|split]].
  - intros -> Hb. unfold Resample.resample_grid. rewrite Hb. reflexivity.
  - intros dst err -> ->. reflexivity.
  - intros Hw res.
    destruct (Resample.resample_grid src match_ds output_datatype)
      as [dst0 | err]; [|discriminate].
    destruct (ReprojectImage src dst0); [|discriminate].
    rewrite Hw. congruence.
  - intros dst Hcall.
    destruct (Resample.resample_grid src match_ds output_datatype)
      as [dst0 | err] eqn:Hres; [|discriminate].
    destruct (ReprojectImage src dst0); [|discriminate].
    destruct (Resample.writes_file to_file); [discriminate|].
    assert (dst0 = dst) as -> by congruence.
    split; [reflexivity|].
    apply (resample_grid_built src match_ds output_datatype dst Hres).
Qed.

(** X11, witness: the source that declares 255, onto the 2 x 2 reference,
    in memory, with a warp that succeeds. *)
Lemma resample_grid_footprint_witness :
  exists dst,
    Resample.resample_grid_call (fun _ _ => Ok tt) src_nodata_255 match_2x2
      None None = Ok (Some dst) /\
    GDALGrid.RasterXSize dst = 2 /\ GDALGrid.RasterYSize dst = 2 /\
    GDALGrid.RasterCount dst = 1%nat.
Proof.
  eexists. split; [vm_compute; reflexivity|].
  destruct (resample_grid_footprint (fun _ _ => Ok tt) src_nodata_255
              match_2x2 None None) as (_ & _ & _ & H).
  destruct (H _ ltac:(vm_compute; reflexivity))
    as (_ & Hx & Hy & _ & _ & Hn & _).
  split; [exact Hx|]. split; [exact Hy | exact Hn].
Defined.

(* ================================================================== *)
(** * Further properties of the loader *)

Section MoreLoading.
Import XRio.
Context {Content : Type}.
Variable read : Content -> option DataArray.

Abbreviation try_open_ := (try_open Content read).

Lemma omap_agree {A B : Type} (f g : A -> option B) (l : list A) :
  (forall x, In x l -> f x = g x) -> omap f l = omap g l.
Proof.
  induction l as [| x l IH]; intros H; [reflexivity|].
  change (omap f (x :: l))
    with (match f x with Some y => y :: omap f l | None => omap f l end).
  change (omap g (x :: l))
    with (match g x with Some y => y :: omap g l | None => omap g l end).
  rewrite (H x (or_introl eq_refl)), IH; [reflexivity|].
  intros y Hy. apply H. right. exact Hy.
Qed.

Lemma failing_agree (f g : string -> option DataArray) (l : list string) :
  (forall x, In x l -> f x = g x) ->
  filter (fun p => f p = None) l = filter (fun p => g p = None) l.
Proof.
  induction l as [| x l IH]; intros H; [reflexivity|].
  rewrite !filter_cons, (H x (or_introl eq_refl)), IH; [reflexivity|].
  intros y Hy. apply H. right. exact Hy.
Qed.

Lemma try_open_delete (files : gmap string Content) (p q : string) :
  p <> q -> try_open_ (delete p files) q = try_open_ files q.
Proof. intros Hne. unfold try_open. rewrite lookup_delete_ne by exact Hne. reflexivity. Qed.

Lemma load_loop_kill (todo : list (nat * string)) (kw : Kwargs)
      (files : gmap string Content) (acc : option Stack) :
  kill_zombies kw = true ->
  NoDup (todo.*2) ->
  (forall p, In p (todo.*2) -> is_Some (files !! p)) ->
  load_loop Content read todo kw files acc
  = (foldl (fun m p => delete p m) files
           (filter (fun p => try_open_ files p = None) (todo.*2)),
     Ok (foldl absorb acc (omap (try_open_ files) (todo.*2)))).
Proof.
  intros Hk. revert files acc.
  induction todo as [| [iF p] rest IH]; intros files acc Hnd Hex;
    [reflexivity|].
  simpl fmap in *. apply NoDup_cons in Hnd as [Hp Hnd].
  simpl load_loop. unfold open. rewrite Hk.
  rewrite filter_cons.
  destruct (try_open_ files p) as [a|] eqn:E.
  - destruct (decide (Some a = None)); [discriminate|].
    rewrite IH; [|exact Hnd|intros q Hq; apply Hex; right; exact Hq].
    simpl. rewrite E. reflexivity.
  - destruct (decide (@None DataArray = None)); [|congruence].
    unfold os_remove.
    destruct (Hex p (or_introl eq_refl)) as [c ->].
    assert (forall q, In q (rest.*2) -> p <> q) as Hne.
    { intros q Hq ->. apply Hp, list_elem_of_In, Hq. }
    rewrite IH; [|exact Hnd|].
    + simpl. rewrite E.
      rewrite (omap_agree (try_open_ (delete p files)) (try_open_ files)),
              (failing_agree (try_open_ (delete p files)) (try_open_ files));
        [reflexivity| |];
        intros q Hq; apply try_open_delete, Hne, Hq.
    + intros q Hq. rewrite lookup_delete_ne by (apply Hne, Hq).
      apply Hex. right. exact Hq.
Qed.

Lemma lookup_foldl_delete (files : gmap string Content) (ps : list string)
      (q : string) :
  foldl (fun m p => delete p m) files ps !! q
  = if decide (q ∈ ps) then None else files !! q.
Proof.
  revert files. induction ps as [| p ps IH]; intros files; simpl.
  - destruct (decide (q ∈ [])) as [Hin | _]; [inversion Hin | reflexivity].
  - rewrite IH.
    destruct (decide (q ∈ ps)) as [Hin | Hnin].
    + destruct (decide (q ∈ p :: ps)) as [_ | Hn]; [reflexivity|].
      exfalso. apply Hn. right. exact Hin.
    + destruct (decide (p = q)) as [-> | Hne].
      * rewrite lookup_delete_eq.
        destruct (decide (q ∈ q :: ps)) as [_ | Hn]; [reflexivity|].
        exfalso. apply Hn. left.
      * rewrite lookup_delete_ne by exact Hne.
        destruct (decide (q ∈ p :: ps)) as [Hin | _]; [|reflexivity].
        apply elem_of_cons in Hin as [-> | Hin]; [congruence | contradiction].
Qed.

Lemma fmap_snd_enumerate {A : Type} (l : list A) (k : nat) :
  (zip (seq k (length l)) l).*2 = l.
Proof.
  revert k. induction l as [| a l IH]; intros k; simpl; [reflexivity|].
  rewrite IH. reflexivity.
Qed.

(** What the loop of [load1] leaves in [array_list] and [index_mask]. *)
Lemma load1_loop_mask (paths : list string) (k : nat) (pre : list bool)
      (acc : list DataArray) (kw : Kwargs) (files : gmap string Content) :
  kill_zombies kw = false -> length pre = k ->
  load1_loop Content read (zip (seq k (length paths)) paths) kw files acc
             (pre ++ replicate (length paths) true)
  = (files,
     Ok (acc ++ omap (try_open_ files) paths,
         pre ++ map (fun p => bool_decide (is_Some (try_open_ files p)))
                    paths)).
Proof.
  intros Hk. revert k pre acc.
  induction paths as [| p paths IH]; intros k pre acc Hpre; simpl.
  - rewrite !app_nil_r. reflexivity.
  - rewrite (open_keep read _ _ _ _ Hk).
    destruct (try_open_ files p) as [a|] eqn:E; simpl.
    + rewrite (cons_middle true pre), app_assoc.
      rewrite (IH (S k) (pre ++ [true]) (acc ++ [a]))
        by (rewrite length_app; simpl; lia).
      rewrite <- !app_assoc. reflexivity.
    + rewrite insert_app_r_alt by lia.
      replace (k - length pre)%nat with 0%nat by lia. simpl.
      rewrite (cons_middle false pre), app_assoc.
      rewrite (IH (S k) (pre ++ [false]) acc)
        by (rewrite length_app; simpl; lia).
      rewrite <- !app_assoc. reflexivity.
Qed.

Lemma load1_loop_start (paths : list string) (kw : Kwargs)
      (files : gmap string Content) :
  kill_zombies kw = false ->
  load1_loop Content read (zip (seq 0 (length paths)) paths) kw files []
             (replicate (length paths) true)
  = (files,
     Ok (omap (try_open_ files) paths,
         map (fun p => bool_decide (is_Some (try_open_ files p))) paths)).
Proof.
  intros Hk. exact (load1_loop_mask paths 0 [] [] kw files Hk eq_refl).
Qed.

(** [np.extract] keeps the labels at the positions of the paths that
    open. *)
Lemma np_extract_opened (files : gmap string Content) (paths : list string)
      (idx : list Z) :
  length idx = length paths ->
  np_extract (map (fun p => bool_decide (is_Some (try_open_ files p))) paths)
             idx
  = Ok ((filter (fun pv => is_Some (try_open_ files pv.1)) (zip paths idx)).*2)
  /\ length ((filter (fun pv => is_Some (try_open_ files pv.1))
                     (zip paths idx)).*2)
     = length (omap (try_open_ files) paths).
Proof.
  revert idx. induction paths as [| p paths IH]; intros [| v idx] Hlen;
    simpl in Hlen; try discriminate.
  - split; reflexivity.
  - injection Hlen as Hlen. destruct (IH idx Hlen) as [IH1 IH2].
    simpl. rewrite filter_cons. simpl.
    destruct (try_open_ files p) as [a|] eqn:E.
    + rewrite bool_decide_eq_true_2 by eauto.
      destruct (decide (is_Some (Some a))) as [_ | Hn];
        [|exfalso; apply Hn; eauto].
      rewrite IH1. simpl. split; [reflexivity | f_equal; exact IH2].
    + rewrite bool_decide_eq_false_2 by (intros [? ?]; discriminate).
      destruct (decide (is_Some (@None DataArray))) as [[? ?] | _];
        [discriminate|].
      split; [exact IH1 | exact IH2].
Qed.

Lemma mergable_true_iff (arrays : list DataArray) :
  mergable arrays = true <->
  forall a b, In a arrays -> In b arrays -> shape a = shape b.
Proof.
  destruct (mergable arrays) eqn:E.
  - split; [|reflexivity]. intros _ a b Ha Hb.
    destruct (decide (shape a = shape b)) as [|Hne]; [assumption|].
    assert (mergable arrays = false) as Hf; [|congruence].
    apply mergable_false_iff. exists a, b.
    split; [apply list_elem_of_In, Ha|]. split; [apply list_elem_of_In, Hb|].
    exact Hne.
  - split; [discriminate|]. intros Hall.
    apply mergable_false_iff in E as (a & b & Ha & Hb & Hne).
    apply list_elem_of_In in Ha, Hb. exfalso. apply Hne, Hall; assumption.
Qed.

End MoreLoading.

(** X12: with [kill_zombies] on, for distinct paths that all exist, [load]
    returns what it returns with [kill_zombies] off, and afterwards the
    disk has lost exactly the listed files that failed to open. *)
Theorem load_kill_zombies_deletes_failed {Content : Type}
  (read : Content -> option XRio.DataArray)
  (files : gmap string Content) (fp : XRio.FilePaths) (kw : XRio.Kwargs) :
  XRio.kill_zombies kw = true ->
  NoDup (XRio.as_list fp) ->
  (forall p, In p (XRio.as_list fp) -> is_Some (files !! p)) ->
  let paths := XRio.as_list fp in
  let out := XRio.load Content read fp kw files in
  out.2 = Ok (match XRio.opened read files paths with
              | [] => None
              | l => Some (XRio.mkStack "time" None l)
              end) /\
  forall q : string,
    out.1 !! q =
      if decide (q ∈ paths /\ XRio.try_open Content read files q = None)
      then None else files !! q.
Proof.
  intros Hk Hnd Hex paths out. subst out. unfold XRio.load, XRio.enumerate.
  rewrite (load_loop_kill read _ kw files None Hk);
    rewrite ?fmap_snd_enumerate; [|exact Hnd|exact Hex].
  simpl. split.
  - rewrite absorb_all. unfold XRio.opened. fold paths.
    destruct (omap (XRio.try_open Content read files) paths); reflexivity.
  - intros q. rewrite lookup_foldl_delete. fold paths.
    destruct (decide (q ∈ filter
                (fun p => XRio.try_open Content read files p = None) paths))
      as [Hin | Hnin].
    + apply list_elem_of_filter in Hin.
      destruct (decide (q ∈ paths /\ XRio.try_open Content read files q = None));
        [reflexivity | tauto].
    + rewrite list_elem_of_filter in Hnin.
      destruct (decide (q ∈ paths /\ XRio.try_open Content read files q = None));
        [tauto | reflexivity].
Qed.

(** X12, witness: the damaged file is deleted, the readable ones stay. *)
Lemma load_kill_zombies_deletes_failed_witness :
  let out := XRio.load tif read_tif
               (XRio.PathList ["a.tif"; "bad.tif"; "b.tif"]%string)
               kw_kill disk in
  out.2 = Ok (Some (XRio.mkStack "time" None [raster_a; raster_b])) /\
  out.1 !! "bad.tif"%string = None /\
  out.1 !! "a.tif"%string = Some (Readable raster_a).
Proof.
  intros out.
  destruct (load_kill_zombies_deletes_failed read_tif disk
              (XRio.PathList ["a.tif"; "bad.tif"; "b.tif"]%string) kw_kill
              eq_refl) as [H1 H2].
  - apply NoDup_ListNoDup. repeat constructor; simpl; intuition discriminate.
  - intros p [<- | [<- | [<- | []]]]; vm_compute; eauto.
  - split; [exact H1|]. split.
    + exact (H2 "bad.tif"%string).
    + exact (H2 "a.tif"%string).
Defined.

(** X13: unlike [load], [load1] raises [IndexError] when no file opens
    (also for an empty path list), and when exactly one file opens it
    returns that array as it is, without a time axis ([kill_zombies]
    off). *)
Theorem load1_none_or_one {Content : Type}
  (read : Content -> option XRio.DataArray)
  (files : gmap string Content) (fp : XRio.FilePaths) (kw : XRio.Kwargs) :
  XRio.kill_zombies kw = false ->
  (XRio.opened read files (XRio.as_list fp) = [] ->
   XRio.load1 Content read fp kw files = (files, Raise IndexError)) /\
  (forall a,
     XRio.opened read files (XRio.as_list fp) = [a] ->
     XRio.load1 Content read fp kw files = (files, Ok (XRio.Single a))).
Proof.
  intros Hk. unfold XRio.load1, XRio.enumerate.
  rewrite (load1_loop_start read (XRio.as_list fp) kw files Hk).
  unfold XRio.opened.
  split; [intros -> | intros a ->]; reflexivity.
Qed.

(** X13, witness: a damaged and a missing file; one readable file. *)
Lemma load1_none_or_one_witness :
  XRio.load1 tif read_tif (XRio.PathList ["bad.tif"; "missing.tif"]%string)
             kw_default disk = (disk, Raise IndexError) /\
  XRio.load1 tif read_tif (XRio.PathList ["bad.tif"; "c.tif"]%string)
             kw_default disk = (disk, Ok (XRio.Single raster_c)).
Proof.
  split.
  - apply (load1_none_or_one read_tif disk
             (XRio.PathList ["bad.tif"; "missing.tif"]%string) kw_default
             eq_refl).
    vm_compute. reflexivity.
  - apply (load1_none_or_one read_tif disk
             (XRio.PathList ["bad.tif"; "c.tif"]%string) kw_default eq_refl).
    vm_compute. reflexivity.
Defined.

(** X14: when at least two files open and all have one shape, [load1]
    returns them merged in path order along the axis named by [axis]
    (default [time]); with an [index] of one label per path, the labels of
    the stack are those of the paths that opened, and without an [index]
    they are [0, 1, ...] ([kill_zombies] off). *)
Theorem load1_merged_labels {Content : Type}
  (read : Content -> option XRio.DataArray)
  (files : gmap string Content) (fp : XRio.FilePaths) (kw : XRio.Kwargs) :
  XRio.kill_zombies kw = false ->
  let paths := XRio.as_list fp in
  let ok := XRio.opened read files paths in
  (1 < length ok)%nat ->
  XRio.mergable ok = true ->
  (forall idx, XRio.kw_index kw = Some idx -> length idx = length paths) ->
  XRio.load1 Content read fp kw files
  = (files,
     Ok (XRio.Merged
           (XRio.mkStack
              (default "time"%string (XRio.kw_axis kw))
              (Some match XRio.kw_index kw with
                    | None => map Z.of_nat (seq 0 (length ok))
                    | Some idx =>
                        (filter (fun pv => is_Some (XRio.try_open Content read
                                                      files pv.1))
                                (zip paths idx)).*2
                    end)
              ok))).
Proof.
  intros Hk paths ok Hlen Hm Hidx. unfold XRio.load1, XRio.enumerate.
  fold paths.
  rewrite (load1_loop_start read paths kw files Hk).
  change (omap (XRio.try_open Content read files) paths) with ok.
  destruct (Nat.ltb_spec 1 (length ok)) as [_ | ?]; [|lia].
  rewrite Hm. unfold XRio.merge.
  destruct (XRio.kw_index kw) as [idx|] eqn:Ei.
  - destruct (np_extract_opened read files paths idx (Hidx idx eq_refl))
      as [-> Hl].
    change (omap (XRio.try_open Content read files) paths) with ok in Hl.
    unfold XRio.xr_concat_new. rewrite Hl, Nat.eqb_refl.
    destruct ok as [| a0 ok']; [simpl in Hlen; lia | reflexivity].
  - unfold XRio.xr_concat_new. destruct ok as [| a0 ok']; [simpl in Hlen; lia|].
    rewrite List.length_map, length_seq, Nat.eqb_refl. reflexivity.
Qed.

(** X14, witness: four paths labelled 2001..2004 of which the second is
    damaged and the third missing; the merged stack is labelled 2001 and
    2004 along the axis [year]. *)
Lemma load1_merged_labels_witness :
  XRio.load1 tif read_tif
    (XRio.PathList ["a.tif"; "bad.tif"; "missing.tif"; "b.tif"]%string)
    kw_years disk
  = (disk,
     Ok (XRio.Merged (XRio.mkStack "year" (Some [2001; 2004])
                                   [raster_a; raster_b]))).
Proof.
  apply (load1_merged_labels read_tif disk
           (XRio.PathList ["a.tif"; "bad.tif"; "missing.tif"; "b.tif"]%string)
           kw_years eq_refl).
  - vm_compute. apply le_n.
  - vm_compute. reflexivity.
  - intros idx [= <-]. reflexivity.
Defined.

(** X15: [mergable] holds exactly when any two of the arrays have the same
    shape (so also for no array and for one), and it does not depend on
    the order of the list although it compares with the first array. *)
Theorem mergable_pairwise (arrays arrays' : list XRio.DataArray) :
  (XRio.mergable arrays = true <->
   forall a b, In a arrays -> In b arrays -> XRio.shape a = XRio.shape b) /\
  (Permutation arrays arrays' ->
   XRio.mergable arrays = XRio.mergable arrays').
Proof.
  split; [apply mergable_true_iff|].
  intros Hp.
  destruct (XRio.mergable arrays) eqn:E, (XRio.mergable arrays') eqn:E';
    try reflexivity; exfalso.
  - apply mergable_false_iff in E' as (a & b & Ha & Hb & Hne).
    rewrite <- Hp in Ha, Hb. apply list_elem_of_In in Ha, Hb.
    apply Hne. apply (proj1 (mergable_true_iff arrays) E); assumption.
  - apply mergable_false_iff in E as (a & b & Ha & Hb & Hne).
    rewrite Hp in Ha, Hb. apply list_elem_of_In in Ha, Hb.
    apply Hne. apply (proj1 (mergable_true_iff arrays') E'); assumption.
Qed.

(* ================================================================== *)
(** * Properties of the lake mask tables *)

Section DestFile.
Import LakeMaskProcessor.

Lemma substring_0_length (n : nat) (s : string) :
  String.length (substring 0 n s) = Nat.min n (String.length s).
Proof.
  revert n. induction s as [| c s IH]; intros [| n]; simpl; try reflexivity.
  rewrite IH. reflexivity.
Qed.

Lemma substring_0_app (s t : string) :
  substring 0 (String.length s) (s ++ t) = s.
Proof.
  induction s as [| c s IH]; simpl.
  - destruct t; reflexivity.
  - rewrite IH. reflexivity.
Qed.

End DestFile.

(** X16: the name that [convert] gives to the converted file is the source
    name without its last four characters followed by [.geo.tif]; it is
    longer than the source name, so it never is the source file itself. *)
Theorem dest_file_is_new (src_file : string) :
  (forall stem ext : string,
     src_file = (stem ++ ext)%string -> String.length ext = 4%nat ->
     LakeMaskProcessor.dest_file src_file = (stem ++ ".geo.tif")%string) /\
  (String.length src_file < String.length (LakeMaskProcessor.dest_file src_file))%nat /\
  LakeMaskProcessor.dest_file src_file <> src_file.
Proof.
  assert (String.length src_file
          < String.length (LakeMaskProcessor.dest_file src_file))%nat as Hlen.
  { unfold LakeMaskProcessor.dest_file.
    rewrite string_app_length, substring_0_length. simpl. lia. }
  split; [|split; [exact Hlen|]].
  - intros stem ext -> Hext. unfold LakeMaskProcessor.dest_file.
    rewrite string_app_length, Hext.
    replace (String.length stem + 4 - 4)%nat with (String.length stem) by lia.
    rewrite substring_0_app. reflexivity.
  - intros Heq. rewrite Heq in Hlen. lia.
Qed.

Section LakeTables.
Import LakeMaskProcessor.
Variable isfile : string -> bool.
Variable file_path : Z -> Z -> string.
Variable reproject_inputs : bool.

Abbreviation entry_ := (mask_entry reproject_inputs).
Abbreviation rows_ := (yearly_rows isfile file_path reproject_inputs).

Lemma elem_of_zrange (lo hi k : Z) : k ∈ zrange lo hi <-> lo <= k < hi.
Proof.
  unfold zrange. rewrite list_elem_of_fmap. split.
  - intros (i & -> & Hi). apply elem_of_seq in Hi. lia.
  - intros Hk. exists (Z.to_nat (k - lo)). split; [lia|].
    apply elem_of_seq. lia.
Qed.

Lemma NoDup_zrange (lo hi : Z) : NoDup (zrange lo hi).
Proof.
  unfold zrange. apply NoDup_fmap_2_strong; [|apply NoDup_seq].
  intros i j _ _ H. lia.
Qed.

Lemma zrange_cons (lo hi : Z) :
  lo < hi -> zrange lo hi = lo :: zrange (lo + 1) hi.
Proof.
  intros H. unfold zrange.
  replace (Z.to_nat (hi - lo)) with (S (Z.to_nat (hi - (lo + 1)))) by lia.
  simpl. f_equal; [lia|].
  rewrite <- fmap_S_seq, <- list_fmap_compose.
  apply list_fmap_ext. intros _ i _. simpl. lia.
Qed.

Lemma zrange_nil (lo hi : Z) : hi <= lo -> zrange lo hi = [].
Proof.
  intros H. unfold zrange. replace (Z.to_nat (hi - lo)) with 0%nat by lia.
  reflexivity.
Qed.

Lemma od_set_new (od : list (Z * string)) (key : Z) (value : string) :
  key ∉ od.*1 -> od_set od key value = od ++ [(key, value)].
Proof.
  induction od as [| [k v] od IH]; intros Hk; simpl; [reflexivity|].
  simpl in Hk. apply not_elem_of_cons in Hk as [Hne Hk].
  destruct (Z.eqb_spec k key); [congruence|].
  rewrite IH by exact Hk. reflexivity.
Qed.

(** The pass over the first year. *)
Lemma first_year_loop (year0 : Z) (L : list Z)
      (m : gmap Z (list (Z * string))) (ix : list Z) :
  exists m',
    lake_loop isfile file_path reproject_inputs year0 year0 (m, ix) L
    = Done (m', ix ++ filter (fun l => Is_true (isfile (file_path year0 l))) L)
    /\ forall l,
        m' !! l =
          if decide (l ∈ L /\ Is_true (isfile (file_path year0 l)))
          then Some [(year0, entry_ (file_path year0 l))]
          else m !! l.
Proof.
  revert m ix. induction L as [| l0 L IH]; intros m ix.
  - exists m. split; [simpl; rewrite app_nil_r; reflexivity|].
    intros l. destruct (decide _) as [[Hin _] | _]; [inversion Hin | reflexivity].
  - simpl lake_loop. unfold lake_step. rewrite Z.eqb_refl, filter_cons.
    destruct (isfile (file_path year0 l0)) eqn:E; simpl.
    + destruct (IH (<[l0 := [(year0, entry_ (file_path year0 l0))]]> m)
                   (ix ++ [l0])) as (m' & -> & Hm').
      exists m'. split; [rewrite <- app_assoc; reflexivity|].
      intros l. rewrite Hm'.
      destruct (decide (l ∈ L /\ _)) as [[Hin Hf] | Hn].
      * destruct (decide (l ∈ l0 :: L /\ _)) as [_ | Hn']; [reflexivity|].
        exfalso. apply Hn'. split; [right; exact Hin | exact Hf].
      * destruct (decide (l = l0)) as [-> | Hne].
        -- rewrite lookup_insert_eq.
           destruct (decide (l0 ∈ l0 :: L /\ _)) as [_ | Hn']; [reflexivity|].
           exfalso. apply Hn'. split; [left | rewrite E; exact I].
        -- rewrite lookup_insert_ne by congruence.
           destruct (decide (l ∈ l0 :: L /\ _)) as [[Hin Hf] | _];
             [|reflexivity].
           apply elem_of_cons in Hin as [-> | Hin]; [congruence|].
           exfalso. apply Hn. split; assumption.
    + destruct (IH m ix) as (m' & -> & Hm').
      exists m'. split; [reflexivity|].
      intros l. rewrite Hm'.
      destruct (decide (l ∈ L /\ _)) as [[Hin Hf] | Hn].
      * destruct (decide (l ∈ l0 :: L /\ _)) as [_ | Hn']; [reflexivity|].
        exfalso. apply Hn'. split; [right; exact Hin | exact Hf].
      * destruct (decide (l ∈ l0 :: L /\ _)) as [[Hin Hf] | _]; [|reflexivity].
        apply elem_of_cons in Hin as [-> | Hin].
        -- rewrite E in Hf. destruct Hf.
        -- exfalso. apply Hn. split; assumption.
Qed.

(** The pass over a later year: every listed lake that has a file gets one
    more entry, at the end. *)
Lemma later_year_loop (year0 year : Z) (L : list Z)
      (m : gmap Z (list (Z * string))) (ix : list Z) :
  year <> year0 -> NoDup L ->
  (forall l, l ∈ L -> exists od, m !! l = Some od /\ year ∉ od.*1) ->
  exists m',
    lake_loop isfile file_path reproject_inputs year0 year (m, ix) L
    = Done (m', ix)
    /\ forall l,
        m' !! l =
          if decide (l ∈ L)
          then (fun od => od ++ rows_ l [year]) <$> m !! l
          else m !! l.
Proof.
  intros Hy. revert m. induction L as [| l0 L IH]; intros m Hnd Hex.
  - exists m. split; [reflexivity|].
    intros l. destruct (decide (l ∈ [])) as [Hin | _];
      [inversion Hin | reflexivity].
  - apply NoDup_cons in Hnd as [Hl0 Hnd].
    destruct (Hex l0 ltac:(left)) as (od0 & Hod0 & Hfresh0).
    simpl lake_loop. unfold lake_step.
    destruct (Z.eqb_spec year year0); [congruence|].
    assert (forall m1 : gmap Z (list (Z * string)),
              (forall l, l ∈ L -> m1 !! l = m !! l) ->
              forall l, l ∈ L ->
                exists od : list (Z * string),
                  m1 !! l = Some od /\ year ∉ od.*1)
      as Hkeep.
    { intros m1 Hsame l Hl. rewrite (Hsame l Hl). apply Hex. right. exact Hl. }
    destruct (isfile (file_path year l0)) eqn:E.
    + rewrite Hod0, od_set_new by exact Hfresh0.
      destruct (IH (<[l0 := od0 ++ [(year, entry_ (file_path year l0))]]> m)
                   Hnd) as (m' & -> & Hm').
      { apply Hkeep. intros l Hl. apply lookup_insert_ne. intros ->. tauto. }
      exists m'. split; [reflexivity|]. intros l. rewrite Hm'.
      destruct (decide (l ∈ L)) as [Hin | Hnin].
      * rewrite lookup_insert_ne by (intros ->; tauto).
        destruct (decide (l ∈ l0 :: L)) as [_ | Hn]; [reflexivity|].
        exfalso. apply Hn. right. exact Hin.
      * destruct (decide (l = l0)) as [-> | Hne].
        -- rewrite lookup_insert_eq, Hod0.
           destruct (decide (l0 ∈ l0 :: L)) as [_ | Hn];
             [|exfalso; apply Hn; left].
           unfold yearly_rows. rewrite filter_cons, E. simpl. reflexivity.
        -- rewrite lookup_insert_ne by congruence.
           destruct (decide (l ∈ l0 :: L)) as [Hin | _]; [|reflexivity].
           apply elem_of_cons in Hin as [-> | Hin]; [congruence | contradiction].
    + destruct (IH m Hnd) as (m' & -> & Hm').
      { apply Hkeep. reflexivity. }
      exists m'. split; [reflexivity|]. intros l. rewrite Hm'.
      destruct (decide (l ∈ L)) as [Hin | Hnin].
      * destruct (decide (l ∈ l0 :: L)) as [_ | Hn]; [reflexivity|].
        exfalso. apply Hn. right. exact Hin.
      * destruct (decide (l ∈ l0 :: L)) as [Hin | _]; [|reflexivity].
        apply elem_of_cons in Hin as [-> | Hin]; [|contradiction].
        rewrite Hod0. unfold yearly_rows. rewrite filter_cons, E. simpl.
        rewrite app_nil_r. reflexivity.
Qed.

Lemma rows_app (l : Z) (ys1 ys2 : list Z) :
  rows_ l (ys1 ++ ys2) = rows_ l ys1 ++ rows_ l ys2.
Proof. unfold yearly_rows. rewrite filter_app, fmap_app. reflexivity. Qed.

Lemma rows_keys (l : Z) (ys : list Z) (y : Z) :
  y ∈ (rows_ l ys).*1 -> y ∈ ys.
Proof.
  unfold yearly_rows. rewrite <- list_fmap_compose.
  intros H. apply list_elem_of_fmap in H as (y' & -> & Hy').
  apply list_elem_of_filter in Hy' as [_ Hy']. exact Hy'.
Qed.

(** The passes over the years after the first. *)
Lemma later_years_loop (year0 lo hi : Z) (ys : list Z)
      (m : gmap Z (list (Z * string))) (ix : list Z) :
  Forall (fun y => year0 < y) ys -> NoDup ys -> NoDup ix ->
  (forall l, l ∈ ix ->
     exists od : list (Z * string),
       m !! l = Some od /\ forall y, y ∈ ys -> y ∉ od.*1) ->
  exists m',
    year_loop isfile file_path reproject_inputs year0 lo hi (m, ix) ys
    = Done (m', ix)
    /\ forall l,
        m' !! l =
          if decide (l ∈ ix)
          then (fun od => od ++ rows_ l ys) <$> m !! l
          else m !! l.
Proof.
  intros Hgt. revert m. induction ys as [| y ys IH]; intros m Hnd Hix Hex.
  - exists m. split; [reflexivity|]. intros l.
    destruct (decide (l ∈ ix)); [|reflexivity].
    destruct (m !! l); simpl; [rewrite app_nil_r|]; reflexivity.
  - apply Forall_cons in Hgt as [Hy Hgt]. apply NoDup_cons in Hnd as [Hyn Hnd].
    simpl year_loop. destruct (Z.ltb_spec year0 y); [|lia].
    destruct (later_year_loop year0 y ix m ix) as (m1 & -> & Hm1);
      [lia | exact Hix | |].
    { intros l Hl. destruct (Hex l Hl) as (od & Hod & Hfresh).
      exists od. split; [exact Hod | apply Hfresh; left]. }
    destruct (IH Hgt m1 Hnd Hix) as (m' & -> & Hm').
    { intros l Hl. destruct (Hex l Hl) as (od & Hod & Hfresh).
      exists (od ++ rows_ l [y]). rewrite Hm1.
      destruct (decide (l ∈ ix)); [|contradiction].
      rewrite Hod. split; [reflexivity|].
      intros y' Hy' Hin. rewrite fmap_app in Hin.
      apply elem_of_app in Hin as [Hin | Hin].
      - apply (Hfresh y'); [right; exact Hy' | exact Hin].
      - apply rows_keys in Hin. apply list_elem_of_singleton in Hin.
        subst. contradiction. }
    exists m'. split; [reflexivity|]. intros l. rewrite Hm', Hm1.
    destruct (decide (l ∈ ix)); [|reflexivity].
    destruct (m !! l) as [od|]; simpl; [|reflexivity].
    rewrite <- app_assoc, <- rows_app. reflexivity.
Qed.

End LakeTables.


(* ================================================================== *)
(** * Properties of the MWP data manager *)

Section Segments.
Import MWPDataManager.
Local Open Scope Q_scope.

Lemma py_round_small (q : Q) : 0 <= q -> q <= 1 # 2 -> py_round q = 0%Z.
Proof.
  intros H0 H1.
  assert (Qfloor q = 0%Z) as Hfl.
  { apply Qfloor_unique; [exact H0|].
    eapply Qle_lt_trans; [exact H1 | reflexivity]. }
  unfold py_round. rewrite Hfl.
  destruct (Qcompare_spec (q - inject_Z 0) (1 # 2)) as [_ | _ | Hgt];
    try reflexivity.
  exfalso. apply (Qlt_irrefl (1 # 2)).
  eapply Qlt_le_trans; [exact Hgt|].
  unfold Qminus. change (- inject_Z 0) with 0. rewrite Qplus_0_r. exact H1.
Qed.

Lemma py_round_nonneg (q : Q) : 0 <= q -> (0 <= py_round q)%Z.
Proof.
  intros H0. pose proof (Qfloor_nonneg q H0) as Hfl.
  unfold py_round.
  destruct (Qcompare (q - inject_Z (Qfloor q)) (1 # 2));
    [destruct (Z.even (Qfloor q))| |]; lia.
Qed.

Lemma py_round_nonpos (q : Q) : q <= 0 -> (py_round q <= 0)%Z.
Proof.
  intros H0.
  assert (Qfloor q <= 0)%Z as Hfl
    by (change 0%Z with (Qfloor (inject_Z 0)); apply Qfloor_resp_le, H0).
  assert (1 # 2 <= q - inject_Z (Qfloor q) -> (Qfloor q < 0)%Z) as Hhalf.
  { intros Hge. destruct (Z.eq_dec (Qfloor q) 0%Z) as [E | ?]; [|lia].
    exfalso. rewrite E in Hge. apply (Qlt_irrefl 0).
    apply Qlt_le_trans with (1 # 2); [reflexivity|].
    eapply Qle_trans; [exact Hge|].
    unfold Qminus. change (- inject_Z 0) with 0. rewrite Qplus_0_r. exact H0. }
  unfold py_round.
  destruct (Qcompare_spec (q - inject_Z (Qfloor q)) (1 # 2)) as [He | _ | Hgt].
  - assert (Qfloor q < 0)%Z by (apply Hhalf; rewrite He; apply Qle_refl).
    destruct (Z.even (Qfloor q)); lia.
  - exact Hfl.
  - assert (Qfloor q < 0)%Z by (apply Hhalf, Qlt_le_weak, Hgt). lia.
Qed.

Lemma py_round_half_down (q : Q) : - (1 # 2) <= q -> q <= 0 -> py_round q = 0%Z.
Proof.
  intros Hlo Hhi.
  destruct (Qlt_le_dec q 0) as [Hneg | Hge].
  - assert (Qfloor q = (-1)%Z) as Hfl.
    { apply Qfloor_unique; [|exact Hneg].
      eapply Qle_trans; [|exact Hlo]. discriminate. }
    unfold py_round. rewrite Hfl.
    destruct (Qcompare_spec (q - inject_Z (-1)) (1 # 2)) as [_ | Hlt | _];
      try reflexivity.
    exfalso. change (inject_Z (-1)) with (- (1)) in Hlt. lra.
  - apply py_round_small; [exact Hge|]. eapply Qle_trans; [exact Hhi|].
    discriminate.
Qed.

Lemma py_round_below_half (q : Q) : q < - (1 # 2) -> (py_round q < 0)%Z.
Proof.
  intros Hq.
  assert (Qfloor q < 0)%Z as Hfl.
  { apply Qfloor_neg. eapply Qlt_trans; [exact Hq | reflexivity]. }
  unfold py_round.
  destruct (Qcompare_spec (q - inject_Z (Qfloor q)) (1 # 2)) as [He | _ | Hgt].
  - destruct (Z.eq_dec (Qfloor q) (-1)%Z) as [E | ?].
    + exfalso. rewrite E in He. change (inject_Z (-1)) with (- (1)) in He. lra.
    + destruct (Z.even (Qfloor q)); lia.
  - exact Hfl.
  - destruct (Z.eq_dec (Qfloor q) (-1)%Z) as [E | ?]; [|lia].
    exfalso. rewrite E in Hgt. change (inject_Z (-1)) with (- (1)) in Hgt. lra.
Qed.

Lemma ratio_nonneg (len n : Z) :
  (0 <= len)%Z -> (0 < n)%Z -> 0 <= inject_Z len / inject_Z n.
Proof.
  intros Hl Hn. apply Qle_shift_div_l.
  - change 0 with (inject_Z 0). rewrite <- Zlt_Qlt. exact Hn.
  - rewrite Qmult_0_l. change 0 with (inject_Z 0). rewrite <- Zle_Qle. exact Hl.
Qed.

Lemma ratio_half (len n : Z) :
  (0 < n)%Z -> (2 * len <= n)%Z -> inject_Z len / inject_Z n <= 1 # 2.
Proof.
  intros Hn H2. apply Qle_shift_div_r.
  - change 0 with (inject_Z 0). rewrite <- Zlt_Qlt. exact Hn.
  - unfold Qle. simpl. lia.
Qed.

Lemma ratio_nonpos (len n : Z) :
  (0 <= len)%Z -> (n < 0)%Z -> inject_Z len / inject_Z n <= 0.
Proof.
  intros Hl Hn.
  assert (inject_Z len / inject_Z n == - (inject_Z len / inject_Z (- n))) as ->.
  { assert (~ inject_Z n == 0) as Hnz.
    { intros E. unfold Qeq in E. simpl in E. lia. }
    rewrite inject_Z_opp. field.
    repeat split; try exact Hnz; intros E; apply Hnz; lra. }
  change 0 with (- 0). apply Qopp_le_compat. apply ratio_nonneg; lia.
Qed.

Lemma ratio_neg_half (len n : Z) :
  (n < 0)%Z -> (2 * len <= - n)%Z -> - (1 # 2) <= inject_Z len / inject_Z n.
Proof.
  intros Hn H2.
  assert (inject_Z len / inject_Z n == - (inject_Z len / inject_Z (- n))) as ->.
  { assert (~ inject_Z n == 0) as Hnz.
    { intros E. unfold Qeq in E. simpl in E. lia. }
    rewrite inject_Z_opp. field.
    repeat split; try exact Hnz; intros E; apply Hnz; lra. }
  apply Qopp_le_compat. apply ratio_half; lia.
Qed.

Lemma ratio_below_neg_half (len n : Z) :
  (n < 0)%Z -> (- n < 2 * len)%Z -> inject_Z len / inject_Z n < - (1 # 2).
Proof.
  intros Hn H2.
  assert (inject_Z len / inject_Z n == - (inject_Z len / inject_Z (- n))) as ->.
  { assert (~ inject_Z n == 0) as Hnz.
    { intros E. unfold Qeq in E. simpl in E. lia. }
    rewrite inject_Z_opp. field.
    repeat split; try exact Hnz; intros E; apply Hnz; lra. }
  apply Qopp_lt_compat. apply Qlt_shift_div_l.
  - change 0 with (inject_Z 0). rewrite <- Zlt_Qlt. lia.
  - unfold Qlt. simpl. lia.
Qed.

End Segments.

Section Slices.
Import MWPDataManager.
Context {A : Type}.

Lemma concat_slices (l : list A) (s count : nat) :
  concat (slices l s count) = take (count * s) l.
Proof.
  unfold slices. induction count as [| c IH].
  - reflexivity.
  - rewrite seq_S, map_app, concat_app, IH. simpl.
    rewrite app_nil_r, take_take_drop. f_equal. lia.
Qed.

Lemma ceil_div_bounds (len s : nat) :
  (0 < s)%nat ->
  (len <= (len + s - 1) / s * s)%nat /\
  (forall k, k < (len + s - 1) / s -> k * s < len)%nat.
Proof.
  intros Hs.
  pose proof (Nat.div_mod_eq (len + s - 1) s) as Hdm.
  pose proof (Nat.mod_upper_bound (len + s - 1) s ltac:(lia)) as Hmod.
  split; [nia|]. intros k Hk. nia.
Qed.

Lemma slices_nonempty (l : list A) (s : nat) :
  (0 < s)%nat ->
  Forall (fun c => c <> [] /\ (length c <= s)%nat)
         (slices l s ((length l + s - 1) / s)).
Proof.
  intros Hs. destruct (ceil_div_bounds (length l) s Hs) as [_ Hlt].
  unfold slices. apply Forall_forall. intros c Hc.
  apply list_elem_of_In, in_map_iff in Hc as (k & <- & Hk).
  apply in_seq in Hk. specialize (Hlt k ltac:(lia)).
  split.
  - intros E. apply (f_equal length) in E.
    rewrite length_take, length_drop in E. simpl in E. lia.
  - rewrite length_take. lia.
Qed.

End Slices.

(** X18: [_segment] raises [ZeroDivisionError] for zero segments and
    [ValueError] (zero range step) when the number of segments, positive
    or negative, is at least twice the number of items in absolute value,
    so always for an empty list; for a negative number of segments smaller
    in absolute value than twice the number of items it returns no chunk;
    and when it returns chunks for a positive number of segments, the
    chunks are non-empty, none is longer than the rounded quotient, and
    joined in order they give the list back. *)
Theorem segment_partitions {A : Type} (strList : list A) (nSegments : Z) :
  (nSegments = 0 ->
   MWPDataManager._segment strList nSegments
   = inl MWPDataManager.ZeroDivisionError) /\
  (0 < nSegments -> 2 * Z.of_nat (length strList) <= nSegments ->
   MWPDataManager._segment strList nSegments
   = inl MWPDataManager.RangeStepZero) /\
  (nSegments < 0 -> 2 * Z.of_nat (length strList) <= - nSegments ->
   MWPDataManager._segment strList nSegments
   = inl MWPDataManager.RangeStepZero) /\
  (nSegments < 0 -> - nSegments < 2 * Z.of_nat (length strList) ->
   MWPDataManager._segment strList nSegments = inr []) /\
  (0 < nSegments ->
   forall chunks, MWPDataManager._segment strList nSegments = inr chunks ->
     concat chunks = strList /\
     Forall (fun c =>
               c <> [] /\
               Z.of_nat (length c)
               <= MWPDataManager.py_round
                    (inject_Z (Z.of_nat (length strList))
                     / inject_Z nSegments)) chunks).
Proof.
  unfold MWPDataManager._segment.
  set (q := (inject_Z (Z.of_nat (length strList)) / inject_Z nSegments)%Q).
  split; [|split; [|split; [|split]]].
  - intros ->. reflexivity.
  - intros Hn H2. destruct (Z.eqb_spec nSegments 0); [lia|].
    rewrite py_round_small; [reflexivity | apply ratio_nonneg; lia
                            | apply ratio_half; lia].
  - intros Hn H2. destruct (Z.eqb_spec nSegments 0); [lia|].
    rewrite py_round_half_down; [reflexivity | apply ratio_neg_half; lia
                                | apply ratio_nonpos; lia].
  - intros Hn H2. destruct (Z.eqb_spec nSegments 0); [lia|].
    pose proof (py_round_below_half q
                  ltac:(apply ratio_below_neg_half; lia)) as Hr.
    destruct (Z.eqb_spec (MWPDataManager.py_round q) 0); [lia|].
    destruct (Z.ltb_spec (MWPDataManager.py_round q) 0); [reflexivity | lia].
  - intros Hn chunks. destruct (Z.eqb_spec nSegments 0); [lia|].
    pose proof (py_round_nonneg q ltac:(apply ratio_nonneg; lia)) as Hr.
    destruct (Z.eqb_spec (MWPDataManager.py_round q) 0); [discriminate|].
    destruct (Z.ltb_spec (MWPDataManager.py_round q) 0); [lia|].
    intros [= <-].
    set (s := Z.to_nat (MWPDataManager.py_round q)).
    assert (0 < s)%nat as Hs by lia.
    split.
    + rewrite concat_slices. apply take_ge.
      apply (proj1 (ceil_div_bounds (length strList) s Hs)).
    + eapply Forall_impl; [apply slices_nonempty, Hs|].
      intros c [Hc Hl]. split; [exact Hc | lia].
Qed.

(** X18, witness: five items in two segments give three chunks (5/2
    rounds to 2); one item in three segments, and three items in minus
    seven, raise; three items in minus two segments give no chunk. *)
Lemma segment_partitions_witness :
  MWPDataManager._segment [1; 2; 3; 4; 5] 2 = inr [[1; 2]; [3; 4]; [5]] /\
  concat [[1; 2]; [3; 4]; [5]] = [1; 2; 3; 4; 5] /\
  MWPDataManager._segment [1] 3 = inl MWPDataManager.RangeStepZero /\
  MWPDataManager._segment [1; 2; 3] (-7) = inl MWPDataManager.RangeStepZero /\
  MWPDataManager._segment [1; 2; 3] (-2) = inr [].
Proof.
  destruct (segment_partitions [1; 2; 3; 4; 5] 2) as (_ & _ & _ & _ & H5).
  destruct (segment_partitions [1] 3) as (_ & H2 & _).
  destruct (segment_partitions [1; 2; 3] (-7)) as (_ & _ & H3 & _).
  destruct (segment_partitions [1; 2; 3] (-2)) as (_ & _ & _ & H4 & _).
  split; [vm_compute; reflexivity|]. split; [|split; [|split]].
  - apply (H5 eq_refl [[1; 2]; [3; 4]; [5]]). vm_compute. reflexivity.
  - apply H2; vm_compute; congruence.
  - apply H3; vm_compute; congruence.
  - apply H4; vm_compute; congruence.
Defined.

(* ================================================================== *)
(** * Further properties of subset *)

Section SortedAgain.
Import XRio.

Lemma sort_insert_head (r : bool) (p : Q) (l : list Q) :
  HdRel (ordered r) p l -> sort_insert r p l = p :: l.
Proof.
  intros H. destruct l as [| q l]; [reflexivity|]. simpl.
  inversion H as [| ? ? Hpq]; subst.
  assert (before r p q = true) as ->; [|reflexivity].
  unfold before, ordered in *. destruct r; apply Qle_bool_iff, Hpq.
Qed.

Lemma py_sort_of_sorted (r : bool) (l : list Q) :
  Sorted (ordered r) l -> py_sort r l = l.
Proof.
  induction 1 as [| p l Hs IH Hhd]; [reflexivity|].
  simpl. rewrite IH. apply sort_insert_head, Hhd.
Qed.

Lemma py_sort_idempotent (r : bool) (l : list Q) :
  py_sort r (py_sort r l) = py_sort r l.
Proof. apply py_sort_of_sorted, py_sort_sorted. Qed.

Lemma subset_unaliased
      (sel : DataArray -> list Q -> list Q -> result DataArray)
      (self : DataArray) (iFile : nat) (xbounds ybounds : nat)
      (h : gmap nat (list Q)) (x0 x1 y0 y1 : Q) :
  get_bounds self = Ok (x0, x1, y0, y1) ->
  xbounds <> ybounds ->
  let rev := if Qlt_le_dec y1 y0 then true else false in
  let xs := py_sort false (h !!! xbounds) in
  let ys := py_sort rev (h !!! ybounds) in
  subset sel self iFile xbounds ybounds h
  = (<[ybounds := ys]> (<[xbounds := xs]> h), sel self xs ys).
Proof.
  intros Hb Hne rev xs ys.
  unfold subset. rewrite Hb. cbv zeta. fold rev.
  rewrite (lookup_total_insert_ne _ xbounds ybounds) by exact Hne.
  fold xs ys.
  rewrite lookup_total_insert_eq.
  rewrite (lookup_total_insert_ne _ ybounds xbounds) by congruence.
  rewrite lookup_total_insert_eq. reflexivity.
Qed.

End SortedAgain.

(** X19: [subset] on an array without x or without y coordinates raises
    [IndexError] before it sorts anything: the caller's lists are left as
    they were. *)
Theorem subset_empty_coords
  (sel : XRio.DataArray -> list Q -> list Q -> result XRio.DataArray)
  (self : XRio.DataArray) (iFile : nat) (xbounds ybounds : nat)
  (h : gmap nat (list Q)) :
  XRio.x_coord self = [] \/ XRio.y_coord self = [] ->
  XRio.subset sel self iFile xbounds ybounds h = (h, Raise IndexError).
Proof.
  intros Hempty. unfold XRio.subset, XRio.get_bounds.
  destruct Hempty as [-> | ->]; simpl.
  - reflexivity.
  - destruct (head (XRio.x_coord self)), (last (XRio.x_coord self));
      reflexivity.
Qed.

(** X19, witness: an array with no x coordinate. *)
Lemma subset_empty_coords_witness :
  XRio.subset (fun a _ _ => Ok a) (XRio.mkDataArray [0%nat] [] [1%Q] [])
              0 1 2 (<[1%nat := [3; 1]%Q]> ∅)
  = (<[1%nat := [3; 1]%Q]> ∅, Raise IndexError).
Proof. apply subset_empty_coords. left. reflexivity. Defined.

(** X20: a second call of [subset] with the same array and the same two
    list objects finds them sorted and leaves the store as the first call
    left it. *)
Theorem subset_twice
  (sel : XRio.DataArray -> list Q -> list Q -> result XRio.DataArray)
  (self : XRio.DataArray) (iFile iFile' : nat) (xbounds ybounds : nat)
  (h : gmap nat (list Q)) (x0 x1 y0 y1 : Q) :
  XRio.get_bounds self = Ok (x0, x1, y0, y1) ->
  xbounds <> ybounds ->
  let first := XRio.subset sel self iFile xbounds ybounds h in
  XRio.subset sel self iFile' xbounds ybounds first.1 = first.
Proof.
  intros Hb Hne first. subst first.
  rewrite (subset_unaliased sel self iFile xbounds ybounds h _ _ _ _ Hb Hne).
  cbv zeta. simpl fst.
  set (rev := if Qlt_le_dec y1 y0 then true else false).
  set (xs := XRio.py_sort false (h !!! xbounds)).
  set (ys := XRio.py_sort rev (h !!! ybounds)).
  set (h1 := <[ybounds:=ys]> (<[xbounds:=xs]> h)).
  rewrite (subset_unaliased sel self iFile' xbounds ybounds h1 _ _ _ _ Hb Hne).
  cbv zeta. fold rev.
  assert (h1 !!! xbounds = xs) as ->.
  { subst h1. rewrite lookup_total_insert_ne by congruence.
    apply lookup_total_insert_eq. }
  assert (h1 !!! ybounds = ys) as ->
    by (subst h1; apply lookup_total_insert_eq).
  subst xs ys. rewrite !py_sort_idempotent.
  fold (XRio.py_sort false (h !!! xbounds)).
  rewrite (insert_id h1 xbounds)
    by (subst h1; rewrite lookup_insert_ne by congruence;
        apply lookup_insert_eq).
  rewrite (insert_id h1 ybounds) by (subst h1; apply lookup_insert_eq).
  reflexivity.
Qed.

(** X20, witness: the grid with descending y coordinates and the lists
    [3, 1] and [2, 9]. *)
Lemma subset_twice_witness :
  let h : gmap nat (list Q) :=
    <[1%nat := [3; 1]%Q]> (<[2%nat := [2; 9]%Q]> ∅) in
  let first := XRio.subset (fun a _ _ => Ok a) raster_c 0 1 2 h in
  XRio.subset (fun a _ _ => Ok a) raster_c 1 1 2 first.1 = first.
Proof.
  intros h first.
  apply (subset_twice (fun a _ _ => Ok a) raster_c 0 1 1 2 h
           (1 # 2) (5 # 2) (5 # 2) (1 # 2)).
  - vm_compute. reflexivity.
  - discriminate.
Defined.
